(** * Anomaly detectors of [apps/anomalist/detectors.py]

    A shallow embedding of the scoring core of the anomalist: the epsilon
    estimator, the three detectors and the score reducer, together with the
    properties stated about them.

    Modelling conventions.
    - A float is an exact rational or NaN ([None]); pandas treats NaN as the
      null value.  Rounding and infinities are not represented: input cells
      are finite or null.
    - A data frame has the default positional index [0 .. n-1]; the two index
      columns [entity_name] and [year] never hold nulls.
    - A Python call either returns or raises: fallible code lives in the
      [outcome] monad. *)

From Stdlib Require Import String Ascii.
From Stdlib Require Import List ZArith QArith Qabs Qround Bool Lia.
From Stdlib Require Import Permutation Sorted OrdersEx RelationClasses Lqa.
Import ListNotations.

Local Open Scope Z_scope.

(** ** Floats and series *)

Definition float := option Q.
Definition series := list float.

Definition isnull (x : float) : bool :=
  match x with None => true | Some _ => false end.

Definition notnull (x : float) : bool := negb (isnull x).

Definition fsub (a b : float) : float :=
  match a, b with
  | Some x, Some y => Some (x - y)%Q
  | _, _ => None
  end.

(** Division by a non-zero constant. *)
Definition fdiv_const (a : float) (d : Q) : float :=
  match a with
  | Some x => Some (x / d)%Q
  | None => None
  end.

Definition float_eq (a b : float) : Prop :=
  match a, b with
  | Some x, Some y => (x == y)%Q
  | None, None => True
  | _, _ => False
  end.

(** [Series.dropna] *)
Fixpoint dropna (s : series) : list Q :=
  match s with
  | [] => []
  | Some x :: s' => x :: dropna s'
  | None :: s' => dropna s'
  end.

(** [Series.fillna(0)] *)
Definition fillna0_cell (x : float) : float :=
  match x with None => Some 0%Q | Some _ => x end.

Definition fillna0 (s : series) : series := map fillna0_cell s.

(** [Series.shift()]: every value moves one row down, the first row is null
    and the length is kept. *)
Definition shift {A : Type} (s : list (option A)) : list (option A) :=
  firstn (length s) (None :: s).

(** [np.zeros_like] on one column. *)
Definition zeros_like (s : series) : series := map (fun _ => Some 0%Q) s.

(** ** Exceptions *)

Inductive exn : Type :=
| KeyError (missing : list Z)
| ValueError (msg : string)
| AssertionError (msg : string).

Inductive outcome (A : Type) : Type :=
| Returns (a : A)
| Raises (e : exn).

Arguments Returns {A} a.
Arguments Raises {A} e.

Definition bind {A B : Type} (m : outcome A) (k : A -> outcome B) : outcome B :=
  match m with
  | Returns a => k a
  | Raises e => Raises e
  end.

Notation "x <- m ;; k" := (bind m (fun x => k))
  (at level 61, m at next level, right associativity).

(** A [for] loop whose body may raise, threading the loop state. *)
Fixpoint for_each {A S : Type} (body : S -> A -> outcome S) (st : S) (xs : list A)
  : outcome S :=
  match xs with
  | [] => Returns st
  | x :: xs' => st' <- body st x ;; for_each body st' xs'
  end.

(** ** Quantiles *)

Fixpoint insert_Q (x : Q) (l : list Q) : list Q :=
  match l with
  | [] => [x]
  | y :: l' => if Qle_bool x y then x :: l else y :: insert_Q x l'
  end.

Definition sort_Q (l : list Q) : list Q := fold_right insert_Q [] l.

(** [Series.quantile(q)] with the default linear interpolation: the value at
    the fractional position [(n-1) * q] of the sorted values; NaN on an empty
    series. *)
Definition quantile (values : list Q) (q : Q) : float :=
  match values with
  | [] => None
  | v0 :: _ =>
      let sorted := sort_Q values in
      let n := Z.of_nat (length values) in
      let h := (inject_Z (n - 1) * q)%Q in
      let lo := Qfloor h in
      let hi := Z.min (lo + 1) (n - 1) in
      let frac := (h - inject_Z lo)%Q in
      let vlo := nth (Z.to_nat lo) sorted v0 in
      let vhi := nth (Z.to_nat hi) sorted v0 in
      Some (vlo + (vhi - vlo) * frac)%Q
  end.

(** ** Epsilon estimator *)

Definition positive (x : Q) : bool := negb (Qle_bool x 0).

Definition estimate_bard_epsilon (s : series) : outcome float :=
  (* Make all values positive, and ignore zeros. *)
  let positive_values := map Qabs (dropna s) in
  let positive_values := filter positive positive_values in
  let eps :=
    fdiv_const (fsub (quantile positive_values (95 # 100))
                     (quantile positive_values (5 # 100))) 10 in
  Returns eps.

(** ** BARD distance *)

(** Modelled from the spec: [etl.data_helpers.misc.bard] is imported by the
    detectors but is not among the sources.  The spec fixes its shape and
    leaves the rest free: the scale [eps] may be rejected up front ("fail
    fast"), the score is computed element-wise, it is null when either input
    is null, and the curve applied to two present values is a free design
    parameter.  The check and the curve are therefore parameters. *)
Record bard_primitive : Type := {
  bard_raises : float -> option exn;
  bard_value : Q -> Q -> float -> float
}.

(** Modelled from the spec: the score of one row, null when either input is
    null. *)
Definition bard_cell (prim : bard_primitive) (eps : float) (a b : float) : float :=
  match a, b with
  | Some x, Some y => bard_value prim x y eps
  | _, _ => None
  end.

Fixpoint zip_with {A B C : Type} (f : A -> B -> C) (l1 : list A) (l2 : list B)
  : list C :=
  match l1, l2 with
  | x :: l1', y :: l2' => f x y :: zip_with f l1' l2'
  | _, _ => []
  end.

(** Modelled from the spec: [bard(a, b, eps)] on two aligned series. *)
Definition bard (prim : bard_primitive) (a b : series) (eps : float)
  : outcome series :=
  match bard_raises prim eps with
  | Some e => Raises e
  | None => Returns (zip_with (bard_cell prim eps) a b)
  end.

(** One admissible curve, the spec's example [|a-b| / (|a-b| + eps)], with
    no check of [eps]; an undefined quotient is NaN. *)
Definition ratio_value (a b : Q) (eps : float) : float :=
  match eps with
  | None => None
  | Some e =>
      let d := Qabs (a - b) in
      if Qeq_bool (d + e) 0 then None else Some (d / (d + e))%Q
  end.

Definition bard_ratio : bard_primitive :=
  {| bard_raises := fun _ => None; bard_value := ratio_value |}.

(** The same curve behind a check that rejects a scale that is not
    positive. *)
Definition bard_ratio_checked : bard_primitive :=
  {| bard_raises := fun eps =>
       match eps with
       | Some e => if Qle_bool e 0
                   then Some (ValueError "eps must be positive")
                   else None
       | None => None
       end;
     bard_value := ratio_value |}.

(** ** Data frames *)

(** Name of index columns for dataframe: ["entity_name"; "year"]. They are
    the two fixed fields; the remaining columns are keyed by variable id. *)
Record DataFrame : Type := {
  entity_name : list string;
  year : list Z;
  columns : list (Z * series)
}.

Definition nrows (df : DataFrame) : nat := length (entity_name df).

(** Every column of a frame has one cell per row. *)
Definition well_formed (df : DataFrame) : Prop :=
  length (year df) = nrows df /\
  Forall (fun c => length (snd c) = nrows df) (columns df).

Fixpoint lookup_column (cols : list (Z * series)) (label : Z) : option series :=
  match cols with
  | [] => None
  | (k, s) :: cols' => if k =? label then Some s else lookup_column cols' label
  end.

Definition has_column (cols : list (Z * series)) (label : Z) : bool :=
  match lookup_column cols label with Some _ => true | None => false end.

(** [df[label]] *)
Definition getitem (df : DataFrame) (label : Z) : outcome series :=
  match lookup_column (columns df) label with
  | Some s => Returns s
  | None => Raises (KeyError [label])
  end.

(** [df[labels]] on a list of labels: the columns in the order asked for, or
    a [KeyError] naming the labels that are not columns. *)
Definition select_columns (cols : list (Z * series)) (labels : list Z)
  : outcome (list (Z * series)) :=
  match filter (fun l => negb (has_column cols l)) labels with
  | [] =>
      Returns (map (fun l => (l, match lookup_column cols l with
                                  | Some s => s
                                  | None => []
                                  end)) labels)
  | missing => Raises (KeyError missing)
  end.

(** The first two statements of every detector:
    [pd.DataFrame(np.zeros_like(df), columns=df.columns)[INDEX_COLUMNS + variable_ids]]
    followed by the copy of the index columns. *)
Definition zeros_frame (df : DataFrame) (variable_ids : list Z)
  : outcome DataFrame :=
  cols <- select_columns
            (map (fun c => (fst c, zeros_like (snd c))) (columns df))
            variable_ids ;;
  Returns {| entity_name := entity_name df;
             year := year df;
             columns := cols |}.

(** [df[label] = s]: every column of that name is replaced; a new label is
    appended as the last column. *)
Definition setitem (df : DataFrame) (label : Z) (s : series) : DataFrame :=
  {| entity_name := entity_name df;
     year := year df;
     columns :=
       if has_column (columns df) label
       then map (fun c => if fst c =? label then (label, s) else c) (columns df)
       else columns df ++ [(label, s)] |}.

Definition set_where (mask : list bool) (value : float) (s : series) : series :=
  zip_with (fun (m : bool) x => if m then value else x) mask s.

(** [df.loc[rows, label] = value] with [rows] given as a row mask: an
    existing column is updated in the selected rows; a new label enlarges
    the frame by a column that is null outside the selected rows, which
    pandas refuses for a scalar on a frame without rows. *)
Definition loc_set (df : DataFrame) (mask : list bool) (label : Z) (value : float)
  : outcome DataFrame :=
  if has_column (columns df) label then
    Returns {| entity_name := entity_name df;
               year := year df;
               columns :=
                 map (fun c => if fst c =? label
                               then (fst c, set_where mask value (snd c))
                               else c) (columns df) |}
  else
    match nrows df with
    | O => Raises (ValueError "cannot set a frame with no defined index and a scalar")
    | _ =>
        Returns {| entity_name := entity_name df;
                   year := year df;
                   columns :=
                     columns df ++
                       [(label, map (fun m : bool => if m then value else None) mask)] |}
    end.

(** [df.loc[mask, labels] = value] for labels that are all columns. *)
Definition loc_set_columns (df : DataFrame) (mask : list bool) (labels : list Z)
    (value : float) : DataFrame :=
  {| entity_name := entity_name df;
     year := year df;
     columns :=
       map (fun c => if existsb (Z.eqb (fst c)) labels
                     then (fst c, set_where mask value (snd c))
                     else c) (columns df) |}.

(** The cell of column [label] at row [i], if there is one. *)
Definition cell (df : DataFrame) (label : Z) (i : nat) : option float :=
  match lookup_column (columns df) label with
  | Some s => nth_error s i
  | None => None
  end.

(** A variable mapping is a Python dict [old id -> new id], iterated in
    insertion order. *)
Definition variable_mapping_t := list (Z * Z).

(** ** Score reducer *)

(** One row of the long format produced by [melt]. *)
Record LongRow : Type := {
  row_entity_name : string;
  row_year : Z;
  row_variable_id : Z;
  row_anomaly_score : float
}.

Definition melt_row (v : Z) (k : string * Z) (x : float) : LongRow :=
  {| row_entity_name := fst k;
     row_year := snd k;
     row_variable_id := v;
     row_anomaly_score := x |}.

(** [df.melt(id_vars=["entity_name", "year"], var_name="variable_id",
    value_name="anomaly_score")]: column after column, each in row order. *)
Definition melt (df : DataFrame) : list LongRow :=
  flat_map
    (fun c => zip_with (melt_row (fst c))
                (combine (entity_name df) (year df)) (snd c))
    (columns df).

Definition fillna0_long (l : list LongRow) : list LongRow :=
  map (fun r => {| row_entity_name := row_entity_name r;
                   row_year := row_year r;
                   row_variable_id := row_variable_id r;
                   row_anomaly_score := fillna0_cell (row_anomaly_score r) |}) l.

(** The [subset] of [drop_duplicates]. *)
Definition subset_key (r : LongRow) : Z * string :=
  (row_variable_id r, row_entity_name r).

Definition key_eqb (k1 k2 : Z * string) : bool :=
  (fst k1 =? fst k2) && String.eqb (snd k1) (snd k2).

(** [drop_duplicates(subset=["variable_id", "entity_name"], keep="first")]:
    a row survives when no earlier row carries its key. *)
Fixpoint drop_duplicates (seen : list (Z * string)) (l : list LongRow)
  : list LongRow :=
  match l with
  | [] => []
  | r :: l' =>
      if existsb (key_eqb (subset_key r)) seen
      then drop_duplicates seen l'
      else r :: drop_duplicates (subset_key r :: seen) l'
  end.

(** Descending order of scores, nulls last. *)
Definition score_geb (a b : float) : bool :=
  match a, b with
  | Some x, Some y => Qle_bool y x
  | _, None => true
  | None, Some _ => false
  end.

Definition score_ge (r1 r2 : LongRow) : Prop :=
  score_geb (row_anomaly_score r1) (row_anomaly_score r2) = true.

(** [sort_values("anomaly_score", ascending=False)] uses the default
    [kind="quicksort"], which does not fix the order of rows with equal
    scores.  The reducer is therefore parameterised by the sorting function;
    all that is known of it is that it permutes the rows into descending
    order. *)
Definition sorts_descending (sort_values : list LongRow -> list LongRow) : Prop :=
  forall l, Permutation (sort_values l) l /\ StronglySorted score_ge (sort_values l).

Definition get_long_format_score_df
    (sort_values : list LongRow -> list LongRow) (df_score : DataFrame)
  : list LongRow :=
  (* Create a reduced score dataframe. *)
  let df_score_long := fillna0_long (melt df_score) in
  (* For now, keep only the latest year affected for each country-indicator. *)
  drop_duplicates [] (sort_values df_score_long).

(** A sorting function that keeps rows of equal score in their order. *)
Fixpoint insert_row (r : LongRow) (l : list LongRow) : list LongRow :=
  match l with
  | [] => [r]
  | r' :: l' =>
      if score_geb (row_anomaly_score r) (row_anomaly_score r')
      then r :: l
      else r' :: insert_row r l'
  end.

Definition sort_values_stable (l : list LongRow) : list LongRow :=
  fold_right insert_row [] l.

(** ** Missing-on-upgrade detector *)

Module AnomalyUpgradeMissing.

Definition anomaly_type : string := "upgrade_missing".

Definition get_score_df (df : DataFrame) (variable_ids : list Z)
    (variable_mapping : variable_mapping_t) : outcome DataFrame :=
  (* Create a dataframe of zeros. *)
  df_lost <- zeros_frame df variable_ids ;;
  (* Make 1 all cells that used to have data in the old version, but are
     missing in the new version. *)
  for_each
    (fun df_lost (pair : Z * Z) =>
       let (variable_id_old, variable_id_new) := pair in
       old <- getitem df variable_id_old ;;
       new <- getitem df variable_id_new ;;
       let affected_rows :=
         zip_with (fun o n => notnull o && isnull n) old new in
       loc_set df_lost affected_rows variable_id_new (Some 1%Q))
    df_lost variable_mapping.

End AnomalyUpgradeMissing.

(** ** Upgrade-change detector *)

Module AnomalyUpgradeChange.

Definition anomaly_type : string := "upgrade_change".

Definition get_score_df (prim : bard_primitive) (df : DataFrame)
    (variable_ids : list Z) (variable_mapping : variable_mapping_t)
  : outcome DataFrame :=
  (* Create a dataframe of zeros. *)
  df_version_change <- zeros_frame df variable_ids ;;
  for_each
    (fun df_version_change (pair : Z * Z) =>
       let (variable_id_old, variable_id_new) := pair in
       (* Calculate the BARD epsilon for each variable. *)
       new <- getitem df variable_id_new ;;
       eps <- estimate_bard_epsilon new ;;
       (* Calculate the BARD for each variable. *)
       old <- getitem df variable_id_old ;;
       variable_bard <- bard prim old new eps ;;
       (* Add bard to the dataframe. *)
       Returns (setitem df_version_change variable_id_new variable_bard))
    df_version_change variable_mapping.

End AnomalyUpgradeChange.

(** ** Time-discontinuity detector *)

(** Lexicographic order on the index columns [(entity_name, year)]. *)
Definition index_leb (k1 k2 : string * Z) : bool :=
  match String_as_OT.compare (fst k1) (fst k2) with
  | Lt => true
  | Eq => snd k1 <=? snd k2
  | Gt => false
  end.

Fixpoint insert_by_index (x : nat * (string * Z)) (l : list (nat * (string * Z)))
  : list (nat * (string * Z)) :=
  match l with
  | [] => [x]
  | y :: l' =>
      if index_leb (snd x) (snd y) then x :: l else y :: insert_by_index x l'
  end.

(** [df.sort_values(by=INDEX_COLUMNS).index]: sorting by several columns is
    stable in pandas; the result lists the row labels in sorted order. *)
Definition sort_values_by_index (df : DataFrame) : list nat :=
  map fst
    (fold_right insert_by_index []
       (combine (seq 0 (nrows df)) (combine (entity_name df) (year df)))).

(** [(df.sort_values(by=INDEX_COLUMNS).index == df.index).all()] *)
Definition index_unchanged_by_sorting (df : DataFrame) : bool :=
  forallb (fun p => Nat.eqb (fst p) (snd p))
    (combine (sort_values_by_index df) (seq 0 (nrows df))).

Module AnomalyTimeChange.

Definition anomaly_type : string := "time_change".

Definition error : string :=
  "The function that detects abrupt time changes assumes the data is sorted by entity_name and year. But this is not the case. Either ensure the data is sorted, or fix the function.".

(** [df["entity_name"] != df["entity_name"].shift()] *)
Definition entity_changes (names : list string) : list bool :=
  zip_with
    (fun (cur : option string) (prev : option string) =>
       match cur, prev with
       | Some a, Some b => negb (String.eqb a b)
       | _, _ => true
       end)
    (map Some names) (shift (map Some names)).

Definition get_score_df (prim : bard_primitive) (df : DataFrame)
    (variable_ids : list Z) (variable_mapping : variable_mapping_t)
  : outcome DataFrame :=
  (* Create a dataframe of zeros. *)
  df_time_change <- zeros_frame df variable_ids ;;
  (* Sanity check. *)
  if negb (index_unchanged_by_sorting df) then Raises (AssertionError error)
  else
    df_time_change <-
      for_each
        (fun df_time_change variable_id =>
           series <- getitem df variable_id ;;
           (* Calculate the BARD epsilon for this variable. *)
           eps <- estimate_bard_epsilon series ;;
           (* Calculate the BARD for this variable. *)
           _bard <- bard prim series (shift series) eps ;;
           (* Add bard to the dataframe. *)
           Returns (setitem df_time_change variable_id (fillna0 _bard)))
        df_time_change variable_ids ;;
    (* Make zero the first point of each entity_name for all columns. *)
    Returns (loc_set_columns df_time_change
               (entity_changes (entity_name df_time_change))
               variable_ids (Some 0%Q)).

End AnomalyTimeChange.

(** ** Inspection of anomalies *)

(** The pure head of [AnomalyDetector.inspect_anomalies]; what follows it in
    the source draws one chart per selected row. *)

(** [d[k] = v] on a dict kept in insertion order. *)
Fixpoint dict_set (d : variable_mapping_t) (k v : Z) : variable_mapping_t :=
  match d with
  | [] => [(k, v)]
  | (k', v') :: d' => if k' =? k then (k, v) :: d' else (k', v') :: dict_set d' k v
  end.

(** [d.get(k)] *)
Fixpoint dict_get (d : variable_mapping_t) (k : Z) : option Z :=
  match d with
  | [] => None
  | (k', v) :: d' => if k' =? k then Some v else dict_get d' k
  end.

(** Reverse variable mapping:
    [variable_id_new_to_old = {v: k for k, v in variable_mapping.items()}]. *)
Definition variable_id_new_to_old (variable_mapping : variable_mapping_t)
  : variable_mapping_t :=
  fold_left (fun d (p : Z * Z) => let (k, v) := p in dict_set d v k)
            variable_mapping [].

(** [DataFrame.head(n)]: the first [n] rows, or all but the last [-n] rows
    when [n] is negative. *)
Definition head {A : Type} (n : Z) (l : list A) : list A :=
  if 0 <=? n then firstn (Z.to_nat n) l
  else firstn (length l - Z.to_nat (- n)) l.

(** Select the most significant anomalies:
    [anomalies.sort_values("anomaly_score", ascending=False).head(n_anomalies)]. *)
Definition most_significant_anomalies
    (sort_values : list LongRow -> list LongRow) (anomalies : list LongRow)
    (n_anomalies : Z) : list LongRow :=
  head n_anomalies (sort_values anomalies).

(** ** Vocabulary of the stated properties *)

(** The absolute values of the non-null entries after discarding exact
    zeros. *)
Definition nonzero_abs_values (s : series) : list Q :=
  map Qabs (filter (fun x => negb (Qeq_bool x 0)) (dropna s)).


Definition index_le (k1 k2 : string * Z) : Prop := index_leb k1 k2 = true.

(** The order of labelled rows by their index columns. *)
Definition by_index (x y : nat * (string * Z)) : Prop := index_le (snd x) (snd y).

(** Rows sorted ascending by [(entity_name, year)]. *)
Definition index_sorted (df : DataFrame) : Prop :=
  StronglySorted index_le (combine (entity_name df) (year df)).


(** Every label of the list is a column of the frame. *)
Definition are_columns (df : DataFrame) (labels : list Z) : Prop :=
  forall v, In v labels -> has_column (columns df) v = true.

(** The primitive accepts the scale estimated for every listed variable. *)
Definition bard_accepts (prim : bard_primitive) (df : DataFrame) (labels : list Z)
  : Prop :=
  forall v s eps,
    In v labels -> getitem df v = Returns s ->
    estimate_bard_epsilon s = Returns eps -> bard_raises prim eps = None.


(** The score series the time-discontinuity detector computes for one
    indicator, before the entity boundaries are zeroed. *)
Definition time_change_scores (prim : bard_primitive) (df : DataFrame) (v : Z)
  : outcome series :=
  series <- getitem df v ;;
  eps <- estimate_bard_epsilon series ;;
  _bard <- bard prim series (shift series) eps ;;
  Returns (fillna0 _bard).

(** The score series the upgrade-change detector computes for one pair. *)
Definition upgrade_change_scores (prim : bard_primitive) (df : DataFrame)
    (pair : Z * Z) : outcome series :=
  new <- getitem df (snd pair) ;;
  eps <- estimate_bard_epsilon new ;;
  old <- getitem df (fst pair) ;;
  bard prim old new eps.

Definition returned {A : Type} (m : outcome A) : option A :=
  match m with Returns a => Some a | Raises _ => None end.

(** The value one row above row [i]; null above the first row. *)
Definition previous (s : series) (i : nat) : float :=
  match i with
  | O => None
  | S k => nth k s None
  end.

(** No cell of any column is null. *)
Definition non_null_columns (df : DataFrame) : Prop :=
  forall c x, In c (columns df) -> In x (snd c) -> x <> None.

(** One round of the missing-on-upgrade loop. *)
Definition upgrade_missing_step (df df_lost : DataFrame) (p : Z * Z)
  : outcome DataFrame :=
  old <- getitem df (fst p) ;;
  new <- getitem df (snd p) ;;
  loc_set df_lost (zip_with (fun o n => notnull o && isnull n) old new)
    (snd p) (Some 1%Q).


(** ** Example tables *)

(** One (entity, indicator) pair with five time points scoring
    [0, 0.2, 0.9, 0.1, 0]. *)
Definition reducer_example : DataFrame :=
  {| entity_name := ["A"; "A"; "A"; "A"; "A"]%string;
     year := [1; 2; 3; 4; 5];
     columns := [(1, [Some 0; Some 0.2; Some 0.9; Some 0.1; Some 0]%Q)] |}.


(** Two pairs: (1, "A") is all zero or null, (1, "B") has one non-zero point. *)
Definition reducer_zero_example : DataFrame :=
  {| entity_name := ["A"; "A"; "B"; "B"]%string;
     year := [1; 2; 1; 2];
     columns := [(1, [Some 0; None; Some 0; Some 0.5]%Q)] |}.

(** Entity "A" with values [10, 10, 10, 1000] at times [1, 2, 3, 4], followed
    by entity "B" with one value [b]. *)
Definition time_change_example (b : float) : DataFrame :=
  {| entity_name := ["A"; "A"; "A"; "A"; "B"]%string;
     year := [1; 2; 3; 4; 1];
     columns := [(1, [Some 10; Some 10; Some 10; Some 1000; b]%Q)] |}.


(** A new series with two equal values next to its old version. *)
Definition degenerate_example : DataFrame :=
  {| entity_name := ["A"; "A"]%string;
     year := [1; 2];
     columns := [(1, [Some 5; Some 7]%Q); (2, [Some 5; Some 5]%Q)] |}.

(** Two old indicators, 1 and 2, that a mapping may send to the same new
    indicator 3. *)
Definition shared_target_example : DataFrame :=
  {| entity_name := ["A"; "A"]%string;
     year := [1; 2];
     columns := [(1, [None; Some 1]%Q);
                 (2, [Some 5; Some 1]%Q);
                 (3, [Some 7; Some 1]%Q)] |}.

(** The same, with the first value of the new indicator lost. *)
Definition lost_example : DataFrame :=
  {| entity_name := ["A"; "A"]%string;
     year := [1; 2];
     columns := [(1, [None; Some 1]%Q);
                 (2, [Some 5; Some 1]%Q);
                 (3, [None; Some 1]%Q)] |}.

(** ** Vocabulary of the further properties *)

(** The series with every value negated. *)
Definition negate (s : series) : series :=
  map (fun x => match x with Some q => Some (- q)%Q | None => None end) s.



(** A cell the estimator does not look at: a null or a zero. *)
Definition ignored_by_estimator (x : float) : Prop :=
  match x with Some q => (q == 0)%Q | None => True end.


(** The value of column [v] at row [i]; null where there is none. *)
Definition value_at (df : DataFrame) (v : Z) (i : nat) : float :=
  match lookup_column (columns df) v with
  | Some s => nth i s None
  | None => None
  end.

(** Row [i] lost the value of [v]: [v] is null there while some old
    indicator mapped to [v] is not. *)
Definition lost (df : DataFrame) (mapping : variable_mapping_t) (v : Z) (i : nat)
  : bool :=
  existsb (fun p => (snd p =? v)
                    && (notnull (value_at df (fst p) i) && isnull (value_at df v i)))
          mapping.

(** A column of zeros and ones over [n] rows. *)
Definition flags (f : nat -> bool) (n : nat) : series :=
  map (fun i => Some (if f i then 1 else 0)%Q) (seq 0 n).

(** The frame [out] has the rows and index columns of [df], one column per
    listed id in the order listed, and one cell per row in every column. *)
Definition table_shape (df : DataFrame) (ids : list Z) (out : DataFrame) : Prop :=
  entity_name out = entity_name df /\
  year out = year df /\
  map fst (columns out) = ids /\
  well_formed out.


(** Every entity has one time point; indicators 1 and 2. *)
Definition single_points_example : DataFrame :=
  {| entity_name := ["A"; "B"]%string;
     year := [1; 1];
     columns := [(1, [None; Some 0.5]%Q); (2, [Some 0.2; Some 0.1]%Q)] |}.

(** * Properties *)

(** ** Epsilon estimator *)

Lemma positive_Qabs (x : Q) : positive (Qabs x) = negb (Qeq_bool x 0).
Proof.
  unfold positive. f_equal.
  destruct (Qle_bool (Qabs x) 0) eqn:Hle, (Qeq_bool x 0) eqn:Heq; try reflexivity.
  - apply Qle_bool_iff in Hle. apply Qeq_bool_neq in Heq. exfalso. apply Heq.
    apply Qabs_Qle_condition in Hle. destruct Hle as [H1 H2].
    apply Qle_antisym; [exact H2 | exact H1].
  - apply Qeq_bool_iff in Heq.
    assert (H : Qle_bool (Qabs x) 0 = true).
    { apply Qle_bool_iff. rewrite Heq. discriminate. }
    congruence.
Qed.

Lemma positive_values_spec (s : series) :
  filter positive (map Qabs (dropna s)) = nonzero_abs_values s.
Proof.
  unfold nonzero_abs_values.
  induction (dropna s) as [|x l IH]; simpl; [reflexivity|].
  rewrite positive_Qabs. destruct (negb (Qeq_bool x 0)); simpl; now rewrite IH.
Qed.

Lemma quantile_defined (values : list Q) (q : Q) :
  values <> [] -> exists v, quantile values q = Some v.
Proof.
  destruct values as [|v0 l]; [congruence|]. intros _. simpl. eauto.
Qed.



(** The estimator has no failing path: it returns a float on every series. *)
Lemma estimate_bard_epsilon_returns (s : series) :
  exists eps, estimate_bard_epsilon s = Returns eps.
Proof. unfold estimate_bard_epsilon. eauto. Qed.

(** C3, as stated, fails: the series [5] leaves a single non-zero value and
    the series [null, 0] leaves none; on neither does the estimator raise.
    It returns 0 on the first and NaN on the second. *)
Lemma estimate_bard_epsilon_raises_nothing :
  ((length (nonzero_abs_values [Some 5%Q]) < 2)%nat /\
   (forall e, estimate_bard_epsilon [Some 5%Q] <> Raises e) /\
   exists v, estimate_bard_epsilon [Some 5%Q] = Returns (Some v) /\ (v == 0)%Q) /\
  ((length (nonzero_abs_values [None; Some 0%Q]) < 2)%nat /\
   (forall e, estimate_bard_epsilon [None; Some 0%Q] <> Raises e) /\
   estimate_bard_epsilon [None; Some 0%Q] = Returns None).
Proof.
  split; (split; [vm_compute; lia|]); (split; [intros e H; discriminate H|]).
  - eexists. split; [vm_compute; reflexivity | reflexivity].
  - reflexivity.
Qed.

(** C3, amended: on a series that keeps fewer than two non-zero absolute
    values the estimator signals no failure; it returns a float, and that
    float is NaN when no non-zero value is left. *)
Theorem estimate_bard_epsilon_insufficient_data (s : series) :
  (length (nonzero_abs_values s) < 2)%nat ->
  (forall e, estimate_bard_epsilon s <> Raises e) /\
  exists eps,
    estimate_bard_epsilon s = Returns eps /\
    (nonzero_abs_values s = [] -> eps = None).
Proof.
  intros _. split.
  - intros e H. discriminate H.
  - unfold estimate_bard_epsilon. rewrite positive_values_spec.
    eexists. split; [reflexivity|].
    intros ->. reflexivity.
Qed.

Lemma estimate_bard_epsilon_insufficient_data_witness :
  (forall e, estimate_bard_epsilon [None; Some 0%Q] <> Raises e) /\
  exists eps,
    estimate_bard_epsilon [None; Some 0%Q] = Returns eps /\
    (nonzero_abs_values [None; Some 0%Q] = [] -> eps = None).
Proof.
  apply (estimate_bard_epsilon_insufficient_data [None; Some 0%Q]).
  vm_compute. lia.
Defined.

(** ** Lists *)

Section ZipWith.
Context {A B C : Type} (f : A -> B -> C).

Lemma nth_error_zip_with (l1 : list A) (l2 : list B) (i : nat) :
  nth_error (zip_with f l1 l2) i =
  match nth_error l1 i, nth_error l2 i with
  | Some a, Some b => Some (f a b)
  | _, _ => None
  end.
Proof.
  revert l2 i. induction l1 as [|a l1 IH]; intros [|b l2] [|i]; simpl;
    try reflexivity.
  - destruct (nth_error l1 i); reflexivity.
  - apply IH.
Qed.

Lemma length_zip_with (l1 : list A) (l2 : list B) :
  length (zip_with f l1 l2) = Nat.min (length l1) (length l2).
Proof.
  revert l2. induction l1 as [|a l1 IH]; intros [|b l2]; simpl; auto.
Qed.

Lemma In_zip_with (l1 : list A) (l2 : list B) (z : C) :
  In z (zip_with f l1 l2) <->
  exists i a b, nth_error l1 i = Some a /\ nth_error l2 i = Some b /\ z = f a b.
Proof.
  split.
  - intros Hin. apply In_nth_error in Hin. destruct Hin as [i Hi].
    rewrite nth_error_zip_with in Hi.
    destruct (nth_error l1 i) as [a|] eqn:Ha; [|discriminate].
    destruct (nth_error l2 i) as [b|] eqn:Hb; [|discriminate].
    exists i, a, b. split; [exact Ha|]. split; [exact Hb|]. congruence.
  - intros (i & a & b & Ha & Hb & ->).
    apply (nth_error_In _ i). rewrite nth_error_zip_with, Ha, Hb. reflexivity.
Qed.
End ZipWith.



(** ** Score reducer *)

Lemma key_eqb_eq (k1 k2 : Z * string) : key_eqb k1 k2 = true <-> k1 = k2.
Proof.
  destruct k1 as [v1 e1], k2 as [v2 e2]. unfold key_eqb. simpl.
  rewrite andb_true_iff, Z.eqb_eq, String.eqb_eq.
  split; [intros [-> ->]; reflexivity | intros H; inversion H; auto].
Qed.

Lemma key_eqb_refl (k : Z * string) : key_eqb k k = true.
Proof. now apply key_eqb_eq. Qed.



Lemma drop_duplicates_incl (l : list LongRow) :
  forall seen r, In r (drop_duplicates seen l) -> In r l.
Proof.
  induction l as [|a l IH]; intros seen r; simpl; [tauto|].
  destruct (existsb (key_eqb (subset_key a)) seen).
  - intros H. right. eapply IH, H.
  - intros [->|H]; [now left | right; eapply IH, H].
Qed.



Lemma fillna0_long_key (l : list LongRow) (r : LongRow) :
  In r (fillna0_long l) <->
  exists r0, In r0 l /\
    r = {| row_entity_name := row_entity_name r0;
           row_year := row_year r0;
           row_variable_id := row_variable_id r0;
           row_anomaly_score := fillna0_cell (row_anomaly_score r0) |}.
Proof.
  unfold fillna0_long. rewrite in_map_iff. split.
  - intros (r0 & <- & Hin). eauto.
  - intros (r0 & Hin & ->). eauto.
Qed.


Lemma reducer_incl (sort_values : list LongRow -> list LongRow)
    (df : DataFrame) (r : LongRow) :
  sorts_descending sort_values ->
  In r (get_long_format_score_df sort_values df) ->
  In r (fillna0_long (melt df)).
Proof.
  intros Hsort Hin. unfold get_long_format_score_df in Hin.
  apply drop_duplicates_incl in Hin.
  eapply Permutation_in; [apply (Hsort _)|exact Hin].
Qed.

Section FlatMapBlocks.
Context {A B : Type} (g : A -> list B) (n : nat).


End FlatMapBlocks.







(** The stable insertion sort is one admissible [sort_values]. *)
Lemma score_geb_total (a b : float) : score_geb a b = false -> score_geb b a = true.
Proof.
  destruct a as [x|], b as [y|]; simpl; try congruence.
  intros H. apply Qle_bool_iff. apply Qlt_le_weak. apply Qnot_le_lt.
  intros Hle. apply Qle_bool_iff in Hle. congruence.
Qed.

Lemma score_geb_trans (a b c : float) :
  score_geb a b = true -> score_geb b c = true -> score_geb a c = true.
Proof.
  destruct a as [x|], b as [y|], c as [z|]; simpl; try congruence.
  rewrite !Qle_bool_iff. intros H1 H2. eapply Qle_trans; eassumption.
Qed.

Lemma insert_row_perm (r : LongRow) (l : list LongRow) :
  Permutation (insert_row r l) (r :: l).
Proof.
  induction l as [|a l IH]; simpl; [reflexivity|].
  destruct (score_geb (row_anomaly_score r) (row_anomaly_score a)); [reflexivity|].
  rewrite IH. apply perm_swap.
Qed.

Lemma insert_row_sorted (r : LongRow) (l : list LongRow) :
  StronglySorted score_ge l -> StronglySorted score_ge (insert_row r l).
Proof.
  induction l as [|a l IH]; intros Hs; simpl.
  - constructor; constructor.
  - apply StronglySorted_inv in Hs. destruct Hs as [Hs Hall].
    destruct (score_geb (row_anomaly_score r) (row_anomaly_score a)) eqn:Hge.
    + constructor; [constructor; assumption|].
      constructor; [exact Hge|].
      rewrite Forall_forall in *. intros x Hx.
      eapply score_geb_trans; [exact Hge | now apply Hall].
    + constructor; [now apply IH|].
      rewrite Forall_forall in *. intros x Hx.
      apply (Permutation_in _ (insert_row_perm r l)) in Hx.
      destruct Hx as [<-|Hx]; [now apply score_geb_total | now apply Hall].
Qed.

Lemma sort_values_stable_sorts : sorts_descending sort_values_stable.
Proof.
  intros l. unfold sort_values_stable. induction l as [|r l [IHp IHs]]; simpl.
  - split; [reflexivity | constructor].
  - split.
    + rewrite insert_row_perm. now constructor.
    + now apply insert_row_sorted.
Qed.


Lemma lookup_column_In (cols : list (Z * series)) (v : Z) (s : series) :
  lookup_column cols v = Some s -> In (v, s) cols.
Proof.
  induction cols as [|[k c] cols IH]; simpl; [discriminate|].
  destruct (k =? v) eqn:Hk.
  - apply Z.eqb_eq in Hk. subst k. intros H. inversion H. now left.
  - intros H. right. now apply IH.
Qed.

Lemma has_column_lookup (cols : list (Z * series)) (v : Z) :
  has_column cols v = true -> exists s, lookup_column cols v = Some s.
Proof.
  unfold has_column. destruct (lookup_column cols v) as [s|]; [eauto|discriminate].
Qed.





(** ** Order of the index columns *)

Lemma slt_irrefl (a : string) : ~ String_as_OT.lt a a.
Proof. apply (@StrictOrder_Irreflexive _ _ String_as_OT.lt_strorder). Qed.

Lemma slt_trans (a b c : string) :
  String_as_OT.lt a b -> String_as_OT.lt b c -> String_as_OT.lt a c.
Proof. apply (@StrictOrder_Transitive _ _ String_as_OT.lt_strorder). Qed.

Lemma scmp_eq (a b : string) : String_as_OT.compare a b = Eq <-> a = b.
Proof.
  destruct (String_as_OT.compare_spec a b) as [H|H|H]; split; intros H';
    try discriminate; try assumption; try reflexivity;
    unfold String_as_OT.eq in *; subst; exfalso; eapply slt_irrefl; exact H.
Qed.

Lemma scmp_gt_lt (a b : string) :
  String_as_OT.compare a b = Gt <-> String_as_OT.compare b a = Lt.
Proof.
  destruct (String_as_OT.compare_spec a b) as [H|H|H],
           (String_as_OT.compare_spec b a) as [H'|H'|H'];
    split; intros E; try discriminate; try reflexivity;
    unfold String_as_OT.eq in *; subst; exfalso;
    solve [ eapply slt_irrefl; eassumption
          | eapply slt_irrefl; eapply slt_trans; eassumption
          | congruence ].
Qed.

Lemma scmp_lt_trans (a b c : string) :
  String_as_OT.compare a b = Lt -> String_as_OT.compare b c = Lt ->
  String_as_OT.compare a c = Lt.
Proof. apply slt_trans. Qed.

Lemma index_leb_total (k1 k2 : string * Z) :
  index_leb k1 k2 = false -> index_leb k2 k1 = true.
Proof.
  unfold index_leb. destruct (String_as_OT.compare (fst k1) (fst k2)) eqn:H12.
  - apply scmp_eq in H12. rewrite H12.
    rewrite (proj2 (scmp_eq (fst k2) (fst k2)) eq_refl). lia.
  - discriminate.
  - apply scmp_gt_lt in H12. now rewrite H12.
Qed.

Lemma index_leb_trans (k1 k2 k3 : string * Z) :
  index_leb k1 k2 = true -> index_leb k2 k3 = true -> index_leb k1 k3 = true.
Proof.
  unfold index_leb.
  destruct (String_as_OT.compare (fst k1) (fst k2)) eqn:H12; try discriminate;
    destruct (String_as_OT.compare (fst k2) (fst k3)) eqn:H23; try discriminate;
    intros Ha Hb.
  - apply scmp_eq in H12. rewrite H12, H23. lia.
  - apply scmp_eq in H12. now rewrite H12, H23.
  - apply scmp_eq in H23. now rewrite <- H23, H12.
  - now rewrite (scmp_lt_trans _ _ _ H12 H23).
Qed.




(** ** The sortedness check *)

Lemma insert_by_index_perm x l : Permutation (insert_by_index x l) (x :: l).
Proof.
  induction l as [|a l IH]; simpl; [reflexivity|].
  destruct (index_leb (snd x) (snd a)); [reflexivity|].
  rewrite IH. apply perm_swap.
Qed.

Lemma insert_by_index_sorted x l :
  StronglySorted by_index l -> StronglySorted by_index (insert_by_index x l).
Proof.
  induction l as [|a l IH]; intros Hs; simpl.
  - constructor; constructor.
  - apply StronglySorted_inv in Hs. destruct Hs as [Hs Hall].
    destruct (index_leb (snd x) (snd a)) eqn:Hle.
    + constructor; [constructor; assumption|].
      constructor; [exact Hle|].
      rewrite Forall_forall in *. intros z Hz.
      eapply index_leb_trans; [exact Hle | now apply Hall].
    + constructor; [now apply IH|].
      rewrite Forall_forall in *. intros z Hz.
      apply (Permutation_in _ (insert_by_index_perm x l)) in Hz.
      destruct Hz as [<-|Hz]; [now apply index_leb_total | now apply Hall].
Qed.

Lemma sort_by_index_perm l : Permutation (fold_right insert_by_index [] l) l.
Proof.
  induction l as [|a l IH]; simpl; [reflexivity|].
  rewrite insert_by_index_perm. now constructor.
Qed.

Lemma sort_by_index_sorted l : StronglySorted by_index (fold_right insert_by_index [] l).
Proof.
  induction l as [|a l IH]; simpl; [constructor|]. now apply insert_by_index_sorted.
Qed.

(** The stable sort leaves a sorted list as it is. *)
Lemma sort_by_index_fixpoint l :
  StronglySorted by_index l -> fold_right insert_by_index [] l = l.
Proof.
  induction l as [|a l IH]; intros Hs; simpl; [reflexivity|].
  apply StronglySorted_inv in Hs. destruct Hs as [Hs Hall].
  rewrite (IH Hs). destruct l as [|b l]; simpl; [reflexivity|].
  inversion Hall as [|? ? Hab _]; subst. unfold by_index, index_le in Hab.
  now rewrite Hab.
Qed.

Lemma NoDup_map_fst_inj {K : Type} (l : list (nat * K)) (a b : nat * K) :
  NoDup (map fst l) -> In a l -> In b l -> fst a = fst b -> a = b.
Proof.
  induction l as [|c l IH]; simpl; intros Hnd Ha Hb Hf; [destruct Ha|].
  inversion Hnd as [|? ? Hnotin Hnd']; subst.
  destruct Ha as [->|Ha], Hb as [->|Hb]; auto.
  - exfalso. apply Hnotin. rewrite Hf. now apply in_map.
  - exfalso. apply Hnotin. rewrite <- Hf. now apply in_map.
Qed.

Lemma same_labels_same_rows {K : Type} (l0 s l : list (nat * K)) :
  NoDup (map fst l0) -> incl s l0 -> incl l l0 ->
  map fst s = map fst l -> s = l.
Proof.
  intros Hnd. revert l. induction s as [|a s IH]; intros [|b l] Hs Hl Hmap;
    simpl in Hmap; try discriminate; [reflexivity|].
  inversion Hmap as [[Hab Hrest]].
  assert (a = b).
  { apply (NoDup_map_fst_inj l0); auto.
    - apply Hs. now left.
    - apply Hl. now left. }
  subst b. f_equal. apply IH; auto.
  - intros x Hx. apply Hs. now right.
  - intros x Hx. apply Hl. now right.
Qed.

Lemma map_fst_combine {A B : Type} (l1 : list A) (l2 : list B) :
  length l1 = length l2 -> map fst (combine l1 l2) = l1.
Proof.
  revert l2. induction l1 as [|a l1 IH]; intros [|b l2] H; simpl in *;
    try discriminate; [reflexivity|]. f_equal. apply IH. lia.
Qed.

Lemma map_snd_combine {A B : Type} (l1 : list A) (l2 : list B) :
  length l1 = length l2 -> map snd (combine l1 l2) = l2.
Proof.
  revert l2. induction l1 as [|a l1 IH]; intros [|b l2] H; simpl in *;
    try discriminate; [reflexivity|]. f_equal. apply IH. lia.
Qed.

Lemma forallb_combine_eqb (l1 l2 : list nat) :
  length l1 = length l2 ->
  (forallb (fun p => Nat.eqb (fst p) (snd p)) (combine l1 l2) = true <-> l1 = l2).
Proof.
  revert l2. induction l1 as [|a l1 IH]; intros [|b l2] H; simpl in *;
    try discriminate; [tauto|].
  rewrite andb_true_iff, Nat.eqb_eq, IH by lia.
  split; [intros [-> ->]; reflexivity | intros E; inversion E; auto].
Qed.

Lemma StronglySorted_map_snd (l : list (nat * (string * Z))) :
  StronglySorted by_index l <-> StronglySorted index_le (map snd l).
Proof.
  induction l as [|a l IH]; simpl; split; intros H; try constructor;
    apply StronglySorted_inv in H; destruct H as [H1 H2];
    try (now apply IH); rewrite Forall_forall in *.
  - intros k Hk. apply in_map_iff in Hk. destruct Hk as (z & <- & Hz).
    now apply H2.
  - intros z Hz. apply H2. now apply in_map.
Qed.

(** The check of the detector accepts exactly the tables whose rows are
    sorted ascending by (entity_name, year). *)
Lemma index_unchanged_by_sorting_iff (df : DataFrame) :
  well_formed df ->
  (index_unchanged_by_sorting df = true <-> index_sorted df).
Proof.
  intros [Hy _]. unfold index_unchanged_by_sorting, sort_values_by_index, index_sorted.
  set (keys := combine (entity_name df) (year df)).
  set (n := nrows df).
  assert (Hk : length keys = n).
  { unfold keys, n, nrows. rewrite length_combine, Hy. unfold nrows. lia. }
  set (L := combine (seq 0 n) keys).
  assert (HL1 : map fst L = seq 0 n).
  { apply map_fst_combine. now rewrite length_seq. }
  assert (HL2 : map snd L = keys).
  { apply map_snd_combine. now rewrite length_seq. }
  rewrite forallb_combine_eqb.
  2:{ rewrite length_map, (Permutation_length (sort_by_index_perm L)).
      unfold L. rewrite length_combine, length_seq, Hk. lia. }
  rewrite <- HL2, <- StronglySorted_map_snd. split.
  - intros Heq. rewrite <- HL1 in Heq.
    assert (Hsame : fold_right insert_by_index [] L = L).
    { apply (same_labels_same_rows L); auto.
      - rewrite HL1. apply seq_NoDup.
      - intros x Hx. eapply Permutation_in; [apply sort_by_index_perm | exact Hx].
      - intros x Hx. exact Hx. }
    rewrite <- Hsame. apply sort_by_index_sorted.
  - intros Hs. rewrite (sort_by_index_fixpoint L Hs). exact HL1.
Qed.

(** ** Frames, columns and loops *)

Lemma for_each_ext {A S : Type} (f g : S -> A -> outcome S) (xs : list A) :
  (forall st x, f st x = g st x) ->
  forall st, for_each f st xs = for_each g st xs.
Proof.
  intros H. induction xs as [|x xs IH]; intros st; simpl; [reflexivity|].
  rewrite H. destruct (g st x); simpl; auto.
Qed.

Lemma for_each_app {A S : Type} (f : S -> A -> outcome S) (xs ys : list A) (st : S) :
  for_each f st (xs ++ ys) = (st' <- for_each f st xs ;; for_each f st' ys).
Proof.
  revert st. induction xs as [|x xs IH]; intros st; simpl; [reflexivity|].
  destruct (f st x); simpl; auto.
Qed.

Lemma find_app {A : Type} (p : A -> bool) (l1 l2 : list A) :
  find p (l1 ++ l2) = match find p l1 with Some x => Some x | None => find p l2 end.
Proof.
  induction l1 as [|a l1 IH]; simpl; [reflexivity|]. now destruct (p a).
Qed.

(** A column-wise transformation that keeps the labels. *)
Lemma lookup_column_map (g : Z -> series -> series) (cols : list (Z * series)) (w : Z) :
  lookup_column (map (fun c => (fst c, g (fst c) (snd c))) cols) w
  = option_map (g w) (lookup_column cols w).
Proof.
  induction cols as [|[k s] cols IH]; simpl; [reflexivity|].
  destruct (k =? w) eqn:Hk; [|exact IH].
  apply Z.eqb_eq in Hk. now subst.
Qed.

Lemma lookup_column_app (cols1 cols2 : list (Z * series)) (w : Z) :
  lookup_column (cols1 ++ cols2) w =
  match lookup_column cols1 w with
  | Some s => Some s
  | None => lookup_column cols2 w
  end.
Proof.
  induction cols1 as [|[k s] cols1 IH]; simpl; [reflexivity|].
  now destruct (k =? w).
Qed.

Lemma lookup_replace (cols : list (Z * series)) (v w : Z) (s : series) :
  lookup_column (map (fun c => if fst c =? v then (v, s) else c) cols) w =
  if w =? v
  then (if has_column cols v then Some s else None)
  else lookup_column cols w.
Proof.
  unfold has_column. induction cols as [|[k c] cols IH]; simpl.
  - now destruct (w =? v).
  - destruct (k =? v) eqn:Hkv; simpl.
    + apply Z.eqb_eq in Hkv. subst k. rewrite (Z.eqb_sym v w).
      destruct (w =? v); [reflexivity | exact IH].
    + destruct (k =? w) eqn:Hkw.
      * apply Z.eqb_eq in Hkw. subst k. now rewrite Hkv.
      * exact IH.
Qed.

Lemma lookup_setitem (df : DataFrame) (v w : Z) (s : series) :
  lookup_column (columns (setitem df v s)) w =
  if w =? v then Some s else lookup_column (columns df) w.
Proof.
  unfold setitem. simpl. destruct (has_column (columns df) v) eqn:Hhas.
  - rewrite lookup_replace, Hhas. reflexivity.
  - rewrite lookup_column_app. simpl. unfold has_column in Hhas.
    rewrite (Z.eqb_sym v w). destruct (w =? v) eqn:Hwv.
    + apply Z.eqb_eq in Hwv. subst w.
      now destruct (lookup_column (columns df) v).
    + now destruct (lookup_column (columns df) w).
Qed.

(** A loop that assigns one computed column per item: the column of a label
    is the one computed for the last item carrying this label. *)
Lemma for_each_setitem_lookup {A : Type} (lab : A -> Z) (col : A -> outcome series)
    (items : list A) :
  forall acc out,
    for_each (fun acc p => s <- col p ;; Returns (setitem acc (lab p) s)) acc items
    = Returns out ->
    entity_name out = entity_name acc /\
    year out = year acc /\
    forall w,
      lookup_column (columns out) w =
      match find (fun p => lab p =? w) (rev items) with
      | Some p => returned (col p)
      | None => lookup_column (columns acc) w
      end.
Proof.
  induction items as [|p items IH]; intros acc out H; simpl in H.
  - inversion H; subst. auto.
  - destruct (col p) as [s|e] eqn:Hcol; simpl in H; [|discriminate].
    destruct (IH _ _ H) as (He & Hy & Hl). simpl in He, Hy.
    split; [exact He|]. split; [exact Hy|].
    intros w. rewrite Hl.
    change (rev (p :: items)) with (rev items ++ [p]). rewrite find_app.
    destruct (find (fun p0 => lab p0 =? w) (rev items)); [reflexivity|].
    rewrite lookup_setitem. cbn [find]. rewrite (Z.eqb_sym (lab p) w).
    destruct (w =? lab p); [now rewrite Hcol | reflexivity].
Qed.

Lemma for_each_setitem_returns {A : Type} (lab : A -> Z) (col : A -> outcome series)
    (items : list A) :
  (forall p, In p items -> exists s, col p = Returns s) ->
  forall acc, exists out,
    for_each (fun acc p => s <- col p ;; Returns (setitem acc (lab p) s)) acc items
    = Returns out.
Proof.
  induction items as [|p items IH]; intros H acc; simpl; [eauto|].
  destruct (H p (or_introl eq_refl)) as [s ->]. simpl.
  apply IH. intros q Hq. apply H. now right.
Qed.

Lemma select_columns_returns (cols : list (Z * series)) (labels : list Z) :
  (forall v, In v labels -> has_column cols v = true) ->
  select_columns cols labels =
  Returns (map (fun l => (l, match lookup_column cols l with
                             | Some s => s
                             | None => []
                             end)) labels).
Proof.
  intros H. unfold select_columns.
  replace (filter (fun l => negb (has_column cols l)) labels) with (@nil Z);
    [reflexivity|].
  symmetry. induction labels as [|l labels IH]; simpl; [reflexivity|].
  rewrite (H l (or_introl eq_refl)). simpl. apply IH. intros v Hv. apply H. now right.
Qed.

Lemma select_columns_raises (cols : list (Z * series)) (labels : list Z) (v : Z) :
  In v labels -> has_column cols v = false ->
  exists missing, select_columns cols labels = Raises (KeyError missing).
Proof.
  intros Hin Hv. unfold select_columns.
  destruct (filter (fun l => negb (has_column cols l)) labels) as [|m ms] eqn:Hf.
  - exfalso. assert (Hin' : In v (filter (fun l => negb (has_column cols l)) labels)).
    { apply filter_In. rewrite Hv. auto. }
    rewrite Hf in Hin'. destruct Hin'.
  - eauto.
Qed.

Lemma zeros_frame_returns (df : DataFrame) (variable_ids : list Z) :
  are_columns df variable_ids ->
  zeros_frame df variable_ids =
  Returns {| entity_name := entity_name df;
             year := year df;
             columns :=
               map (fun l => (l, match lookup_column (columns df) l with
                                 | Some s => zeros_like s
                                 | None => []
                                 end)) variable_ids |}.
Proof.
  intros H. unfold zeros_frame.
  assert (Hl : forall l,
             lookup_column (map (fun c => (fst c, zeros_like (snd c))) (columns df)) l
             = option_map zeros_like (lookup_column (columns df) l)).
  { intros l. apply (lookup_column_map (fun _ => zeros_like)). }
  rewrite select_columns_returns.
  - simpl. do 2 f_equal. apply map_ext. intros l. rewrite Hl.
    now destruct (lookup_column (columns df) l).
  - intros v Hv. unfold has_column. rewrite Hl.
    specialize (H v Hv). unfold has_column in H.
    now destruct (lookup_column (columns df) v).
Qed.

Lemma lookup_column_labels (f : Z -> series) (labels : list Z) (w : Z) :
  lookup_column (map (fun l => (l, f l)) labels) w =
  if existsb (Z.eqb w) labels then Some (f w) else None.
Proof.
  induction labels as [|l labels IH]; simpl; [reflexivity|].
  rewrite (Z.eqb_sym w l). destruct (l =? w) eqn:Hl; simpl; [|exact IH].
  apply Z.eqb_eq in Hl. now subst.
Qed.

Lemma existsb_eqb_In (w : Z) (labels : list Z) :
  existsb (Z.eqb w) labels = true <-> In w labels.
Proof.
  rewrite existsb_exists. split.
  - intros (x & Hx & E). apply Z.eqb_eq in E. now subst.
  - intros H. exists w. split; [exact H | apply Z.eqb_refl].
Qed.

Lemma find_label_rev (labels : list Z) (w : Z) :
  In w labels -> find (fun p => p =? w) (rev labels) = Some w.
Proof.
  intros H. apply in_rev in H.
  induction (rev labels) as [|a l IH]; simpl; [destruct H|].
  destruct (a =? w) eqn:Ha.
  - apply Z.eqb_eq in Ha. now subst.
  - destruct H as [->|H]; [rewrite Z.eqb_refl in Ha; discriminate | now apply IH].
Qed.

Lemma for_each_invariant {A S : Type} (I : S -> Prop) (body : S -> A -> outcome S)
    (xs : list A) :
  (forall st x st', In x xs -> I st -> body st x = Returns st' -> I st') ->
  forall st out, I st -> for_each body st xs = Returns out -> I out.
Proof.
  induction xs as [|x xs IH]; intros Hstep st out Hst H; simpl in H.
  - inversion H; now subst.
  - destruct (body st x) as [st'|e] eqn:Hb; simpl in H; [|discriminate].
    eapply IH; [| |exact H].
    + intros st0 y st1 Hy. apply Hstep. now right.
    + eapply Hstep; eauto. now left.
Qed.

(** ** Shifted series and entity boundaries *)

Lemma length_shift {A : Type} (l : list (option A)) : length (shift l) = length l.
Proof. unfold shift. rewrite length_firstn. simpl. lia. Qed.

Lemma nth_error_shift {A : Type} (l : list (option A)) (i : nat) :
  nth_error (shift l) i =
  if (i <? length l)%nat
  then match i with O => Some None | S k => nth_error l k end
  else None.
Proof.
  unfold shift. rewrite nth_error_firstn.
  destruct (i <? length l)%nat; [|reflexivity]. now destruct i.
Qed.


Lemma length_entity_changes (names : list string) :
  length (AnomalyTimeChange.entity_changes names) = length names.
Proof.
  unfold AnomalyTimeChange.entity_changes.
  rewrite length_zip_with, length_shift, !length_map. lia.
Qed.

Lemma nth_error_set_where (mask : list bool) (value : float) (s : series) (i : nat) :
  nth_error (set_where mask value s) i =
  match nth_error mask i, nth_error s i with
  | Some m, Some x => Some (if m then value else x)
  | _, _ => None
  end.
Proof. unfold set_where. apply nth_error_zip_with. Qed.

Lemma StronglySorted_nth_error {A : Type} (R : A -> A -> Prop) (l : list A) :
  StronglySorted R l ->
  forall i j a b, (i < j)%nat -> nth_error l i = Some a -> nth_error l j = Some b ->
                  R a b.
Proof.
  induction 1 as [|x l Hs IH Hall]; intros i j a b Hij Ha Hb.
  - destruct i; discriminate.
  - destruct j as [|j]; [lia|]. simpl in Hb. destruct i as [|i]; simpl in Ha.
    + inversion Ha; subst. rewrite Forall_forall in Hall. apply Hall.
      eapply nth_error_In; eauto.
    + apply (IH i j); auto. lia.
Qed.



(** ** Time-discontinuity detector *)

Lemma getitem_returns (df : DataFrame) (v : Z) :
  has_column (columns df) v = true -> exists s, getitem df v = Returns s /\
                                                lookup_column (columns df) v = Some s.
Proof.
  intros H. destruct (has_column_lookup _ _ H) as [s Hs].
  exists s. unfold getitem. now rewrite Hs.
Qed.

Lemma time_change_scores_returns (prim : bard_primitive) (df : DataFrame)
    (ids : list Z) (v : Z) :
  are_columns df ids -> bard_accepts prim df ids -> In v ids ->
  exists s eps,
    getitem df v = Returns s /\
    estimate_bard_epsilon s = Returns eps /\
    time_change_scores prim df v
    = Returns (fillna0 (zip_with (bard_cell prim eps) s (shift s))).
Proof.
  intros Hcols Hacc Hv.
  destruct (getitem_returns df v (Hcols v Hv)) as (s & Hs & _).
  destruct (estimate_bard_epsilon_returns s) as [eps Heps].
  exists s, eps. split; [exact Hs|]. split; [exact Heps|].
  unfold time_change_scores. rewrite Hs. cbn [bind]. rewrite Heps. cbn [bind].
  unfold bard. rewrite (Hacc v s eps Hv Hs Heps). reflexivity.
Qed.

Lemma time_change_unfold (prim : bard_primitive) (df : DataFrame)
    (ids : list Z) (mapping : variable_mapping_t) :
  AnomalyTimeChange.get_score_df prim df ids mapping =
  (df0 <- zeros_frame df ids ;;
   if negb (index_unchanged_by_sorting df)
   then Raises (AssertionError AnomalyTimeChange.error)
   else
     acc <- for_each
              (fun acc v => s <- time_change_scores prim df v ;;
                            Returns (setitem acc v s)) df0 ids ;;
     Returns (loc_set_columns acc
                (AnomalyTimeChange.entity_changes (entity_name acc))
                ids (Some 0%Q))).
Proof.
  unfold AnomalyTimeChange.get_score_df.
  destruct (zeros_frame df ids) as [df0|e]; cbn [bind]; [|reflexivity].
  destruct (index_unchanged_by_sorting df); cbn [negb]; [|reflexivity].
  rewrite (for_each_ext _
             (fun acc v => s <- time_change_scores prim df v ;;
                           Returns (setitem acc v s))); [reflexivity|].
  intros st v. unfold time_change_scores.
  destruct (getitem df v) as [s|e]; cbn [bind]; [|reflexivity].
  destruct (estimate_bard_epsilon s) as [eps|e]; cbn [bind]; [|reflexivity].
  destruct (bard prim s (shift s) eps); reflexivity.
Qed.

Lemma lookup_loc_set_columns (df : DataFrame) (mask : list bool) (labels : list Z)
    (value : float) (w : Z) :
  lookup_column (columns (loc_set_columns df mask labels value)) w =
  option_map (fun s => if existsb (Z.eqb w) labels
                       then set_where mask value s else s)
             (lookup_column (columns df) w).
Proof.
  unfold loc_set_columns. simpl.
  rewrite <- (lookup_column_map
                (fun l s => if existsb (Z.eqb l) labels
                            then set_where mask value s else s)).
  f_equal. apply map_ext. intros [k c]. simpl.
  now destruct (existsb (Z.eqb k) labels).
Qed.

(** What the detector returns on a sorted table: the frame keeps its rows
    and index columns, and the column of every listed variable holds the
    zero-filled BARD scores against the row above, with zeros at the rows
    where the entity changes. *)
Lemma time_change_result (prim : bard_primitive) (df : DataFrame)
    (ids : list Z) (mapping : variable_mapping_t) :
  well_formed df -> index_sorted df -> are_columns df ids ->
  bard_accepts prim df ids ->
  exists out,
    AnomalyTimeChange.get_score_df prim df ids mapping = Returns out /\
    entity_name out = entity_name df /\
    year out = year df /\
    forall v s eps,
      In v ids -> getitem df v = Returns s ->
      estimate_bard_epsilon s = Returns eps ->
      lookup_column (columns out) v =
      Some (set_where (AnomalyTimeChange.entity_changes (entity_name df)) (Some 0%Q)
              (fillna0 (zip_with (bard_cell prim eps) s (shift s)))).
Proof.
  intros Hwf Hsorted Hcols Hacc.
  rewrite time_change_unfold, (zeros_frame_returns df ids Hcols). cbn [bind].
  rewrite (proj2 (index_unchanged_by_sorting_iff df Hwf) Hsorted). cbn [negb].
  set (df0 := {| entity_name := entity_name df; year := year df;
                 columns := _ |}).
  destruct (for_each_setitem_returns (fun v : Z => v) (time_change_scores prim df) ids)
    with (acc := df0) as [acc Hloop].
  { intros v Hv.
    destruct (time_change_scores_returns prim df ids v Hcols Hacc Hv)
      as (s & eps & _ & _ & H). eauto. }
  rewrite Hloop. cbn [bind].
  destruct (for_each_setitem_lookup _ _ _ _ _ Hloop) as (He & Hy & Hl).
  eexists. split; [reflexivity|].
  split; [exact He|]. split; [exact Hy|].
  intros v s eps Hv Hs Heps.
  rewrite lookup_loc_set_columns, Hl, (find_label_rev ids v Hv).
  destruct (time_change_scores_returns prim df ids v Hcols Hacc Hv)
    as (s' & eps' & Hs' & Heps' & H).
  rewrite Hs in Hs'. inversion Hs'; subst s'.
  rewrite Heps in Heps'. inversion Heps'; subst eps'.
  rewrite H. simpl. rewrite (proj2 (existsb_eqb_In v ids) Hv), He. reflexivity.
Qed.

Lemma time_change_cell (prim : bard_primitive) (eps : float) (s : series)
    (mask : list bool) (i : nat) (m : bool) :
  nth_error mask i = Some m -> (i < length s)%nat ->
  nth_error (set_where mask (Some 0%Q)
               (fillna0 (zip_with (bard_cell prim eps) s (shift s)))) i =
  Some (if m then Some 0%Q
        else fillna0_cell (bard_cell prim eps (nth i s None) (previous s i))).
Proof.
  intros Hm Hi. rewrite nth_error_set_where, Hm.
  unfold fillna0. rewrite nth_error_map, nth_error_zip_with.
  unfold series, float in *. rewrite nth_error_shift.
  rewrite (nth_error_nth' s None Hi).
  pose proof Hi as Hi'. apply Nat.ltb_lt in Hi'. rewrite Hi'.
  destruct i as [|k]; simpl; [reflexivity|].
  rewrite (nth_error_nth' s None) by lia. reflexivity.
Qed.

Lemma column_length (df : DataFrame) (v : Z) (s : series) :
  well_formed df -> getitem df v = Returns s -> length s = nrows df.
Proof.
  intros [_ Hc] Hs. unfold getitem in Hs.
  destruct (lookup_column (columns df) v) as [s'|] eqn:Hl; [|discriminate].
  inversion Hs; subst s'. apply lookup_column_In in Hl.
  rewrite Forall_forall in Hc. apply (Hc _ Hl).
Qed.




Lemma example_well_formed (b : float) : well_formed (time_change_example b).
Proof. split; [reflexivity | repeat constructor]. Qed.

Lemma example_sorted (b : float) : index_sorted (time_change_example b).
Proof.
  apply index_unchanged_by_sorting_iff; [apply example_well_formed|].
  vm_compute. reflexivity.
Qed.

Lemma example_columns (b : float) : are_columns (time_change_example b) [1].
Proof. intros v [<-|[]]. reflexivity. Qed.



(** ** Scores of the time-discontinuity detector are never null *)

Lemma fillna0_non_null (s : series) (x : float) : In x (fillna0 s) -> x <> None.
Proof.
  unfold fillna0. rewrite in_map_iff. intros ([q|] & <- & _); discriminate.
Qed.

Lemma setitem_non_null (df : DataFrame) (v : Z) (s : series) :
  non_null_columns df -> (forall x, In x s -> x <> None) ->
  non_null_columns (setitem df v s).
Proof.
  intros Hdf Hs c x Hc Hx. unfold setitem in Hc. simpl in Hc.
  destruct (has_column (columns df) v).
  - apply in_map_iff in Hc. destruct Hc as (c0 & Hc0 & Hin).
    destruct (fst c0 =? v); subst c; [now apply Hs | eapply Hdf; eauto].
  - apply in_app_or in Hc. destruct Hc as [Hc|[<-|[]]];
      [eapply Hdf; eauto | now apply Hs].
Qed.

Lemma set_where_non_null (mask : list bool) (s : series) (x : float) :
  (forall y, In y s -> y <> None) ->
  In x (set_where mask (Some 0%Q) s) -> x <> None.
Proof.
  intros Hs Hx. unfold set_where in Hx. apply In_zip_with in Hx.
  destruct Hx as (i & m & y & _ & Hy & ->).
  destruct m; [discriminate|]. apply Hs. eapply nth_error_In; eauto.
Qed.

Lemma time_change_scores_non_null (prim : bard_primitive) (df : DataFrame)
    (v : Z) (s : series) :
  time_change_scores prim df v = Returns s -> forall x, In x s -> x <> None.
Proof.
  unfold time_change_scores. intros H x Hx.
  destruct (getitem df v) as [s0|]; cbn [bind] in H; [|discriminate].
  destruct (estimate_bard_epsilon s0) as [eps|]; cbn [bind] in H; [|discriminate].
  destruct (bard prim s0 (shift s0) eps) as [b|]; cbn [bind] in H; [|discriminate].
  inversion H; subst s. eapply fillna0_non_null; eauto.
Qed.

Lemma bard_cell_null (prim : bard_primitive) (eps a b : float) :
  a = None \/ b = None -> bard_cell prim eps a b = None.
Proof. intros [->| ->]; [reflexivity | now destruct a]. Qed.

(** C10: on a sorted table every score cell of the returned frame is
    non-null; in particular a row where the value or the value above it is
    null scores 0, even when only one of the two is null. *)
Theorem time_change_scores_never_null (prim : bard_primitive) (df : DataFrame)
    (ids : list Z) (mapping : variable_mapping_t) :
  index_sorted df -> well_formed df -> are_columns df ids ->
  bard_accepts prim df ids ->
  exists out,
    AnomalyTimeChange.get_score_df prim df ids mapping = Returns out /\
    non_null_columns out /\
    (forall v i, In v ids -> (i < nrows df)%nat ->
                 exists q, cell out v i = Some (Some q)) /\
    (forall v s i,
        In v ids -> getitem df v = Returns s -> (i < nrows df)%nat ->
        nth i s None = None \/ previous s i = None ->
        cell out v i = Some (Some 0%Q)).
Proof.
  intros Hs Hwf Hcols Hacc.
  destruct (time_change_result prim df ids mapping Hwf Hs Hcols Hacc)
    as (out & Hout & He & Hy & Hl).
  exists out. split; [exact Hout|].
  assert (Hcell : forall v s eps i,
             In v ids -> getitem df v = Returns s ->
             estimate_bard_epsilon s = Returns eps -> (i < nrows df)%nat ->
             exists m, cell out v i =
                       Some (if m : bool then Some 0%Q
                             else fillna0_cell
                                    (bard_cell prim eps (nth i s None) (previous s i)))).
  { intros v s eps i Hv Hgs Heps Hi. unfold cell. rewrite (Hl v s eps Hv Hgs Heps).
    destruct (nth_error (AnomalyTimeChange.entity_changes (entity_name df)) i)
      as [m|] eqn:Hm.
    - exists m. apply time_change_cell; [exact Hm|].
      now rewrite (column_length df v s Hwf Hgs).
    - apply nth_error_None in Hm. rewrite length_entity_changes in Hm.
      unfold nrows in Hi. lia. }
  split; [|split].
  - rewrite time_change_unfold, (zeros_frame_returns df ids Hcols) in Hout.
    cbn [bind] in Hout.
    rewrite (proj2 (index_unchanged_by_sorting_iff df Hwf) Hs) in Hout.
    cbn [negb] in Hout.
    match type of Hout with
    | context [for_each ?body ?df0 ids] =>
        destruct (for_each body df0 ids) as [acc|e] eqn:Hloop
    end; cbn [bind] in Hout; [|discriminate].
    inversion Hout; subst out. clear Hout.
    assert (Hinv : non_null_columns acc).
    { eapply (for_each_invariant non_null_columns); [| |exact Hloop].
      - intros st v st' _ Hst Hbody. cbv beta in Hbody.
        destruct (time_change_scores prim df v) as [s|] eqn:Hsc;
          cbn [bind] in Hbody; [|discriminate].
        inversion Hbody; subst st'. apply setitem_non_null; [exact Hst|].
        now apply (time_change_scores_non_null prim df v).
      - intros c x Hc Hx. cbn [columns] in Hc. apply in_map_iff in Hc.
        destruct Hc as (l & Hl' & _). subst c. cbn [snd] in Hx.
        destruct (lookup_column (columns df) l); [|destruct Hx].
        unfold zeros_like in Hx. apply in_map_iff in Hx.
        destruct Hx as (y & <- & _). discriminate. }
    intros c x Hc Hx. unfold loc_set_columns in Hc. simpl in Hc.
    apply in_map_iff in Hc. destruct Hc as (c0 & Hc0 & Hin).
    destruct (existsb (Z.eqb (fst c0)) ids); subst c.
    + simpl in Hx. eapply set_where_non_null; [|exact Hx].
      intros y Hy'. eapply Hinv; eauto.
    + eapply Hinv; eauto.
  - intros v i Hv Hi.
    destruct (getitem_returns df v (Hcols v Hv)) as (s & Hgs & _).
    destruct (estimate_bard_epsilon_returns s) as [eps Heps].
    destruct (Hcell v s eps i Hv Hgs Heps Hi) as [m Hm]. rewrite Hm.
    destruct m; [eauto|].
    destruct (bard_cell prim eps (nth i s None) (previous s i)); simpl; eauto.
  - intros v s i Hv Hgs Hi Hnull.
    destruct (estimate_bard_epsilon_returns s) as [eps Heps].
    destruct (Hcell v s eps i Hv Hgs Heps Hi) as [m Hm]. rewrite Hm.
    rewrite (bard_cell_null prim eps _ _ Hnull). now destruct m.
Qed.

Lemma time_change_scores_never_null_witness :
  exists out,
    AnomalyTimeChange.get_score_df bard_ratio (time_change_example None) [1] []
    = Returns out /\
    non_null_columns out /\
    (forall v i, In v [1] -> (i < nrows (time_change_example None))%nat ->
                 exists q, cell out v i = Some (Some q)) /\
    (forall v s i,
        In v [1] -> getitem (time_change_example None) v = Returns s ->
        (i < nrows (time_change_example None))%nat ->
        nth i s None = None \/ previous s i = None ->
        cell out v i = Some (Some 0%Q)).
Proof.
  apply (time_change_scores_never_null bard_ratio (time_change_example None) [1] []).
  - apply example_sorted.
  - apply example_well_formed.
  - apply example_columns.
  - intros v s eps _ _ _. reflexivity.
Defined.

(** ** Upgrade-change detector *)

(** C9: the new series [5, 5] keeps two non-zero values, its estimated scale
    is 0, and the detector hands this scale to the BARD primitive as it is:
    what it returns is what the primitive makes of [eps = 0].  With the
    unchecked ratio curve the first score is NaN; with a primitive that
    rejects such a scale the whole call fails. *)
Theorem upgrade_change_passes_zero_epsilon :
  (2 <= length (nonzero_abs_values [Some 5; Some 5]%Q))%nat /\
  exists eps0 : Q,
    estimate_bard_epsilon [Some 5; Some 5]%Q = Returns (Some eps0) /\
    (eps0 == 0)%Q /\
    (forall prim,
        AnomalyUpgradeChange.get_score_df prim degenerate_example [2] [(1, 2)]
        = (scores <- bard prim [Some 5; Some 7]%Q [Some 5; Some 5]%Q (Some eps0) ;;
           Returns {| entity_name := entity_name degenerate_example;
                      year := year degenerate_example;
                      columns := [(2, scores)] |})) /\
    (exists out,
        AnomalyUpgradeChange.get_score_df bard_ratio degenerate_example [2] [(1, 2)]
        = Returns out /\ cell out 2 0 = Some None) /\
    (exists e,
        AnomalyUpgradeChange.get_score_df bard_ratio_checked degenerate_example
          [2] [(1, 2)] = Raises e).
Proof.
  split; [vm_compute; lia|].
  exists (0 # 100000)%Q. split; [vm_compute; reflexivity|].
  split; [reflexivity|]. split; [|split].
  - intros prim. unfold AnomalyUpgradeChange.get_score_df, bard.
    change (zeros_frame degenerate_example [2])
      with (Returns {| entity_name := entity_name degenerate_example;
                       year := year degenerate_example;
                       columns := [(2, [Some 0; Some 0]%Q)] |}).
    cbn [bind for_each].
    change (getitem degenerate_example 2) with (Returns [Some 5; Some 5]%Q).
    change (getitem degenerate_example 1) with (Returns [Some 5; Some 7]%Q).
    cbn [bind].
    change (estimate_bard_epsilon [Some 5; Some 5]%Q)
      with (Returns (Some (0 # 100000)%Q)).
    cbn [bind].
    destruct (bard_raises prim (Some (0 # 100000)%Q)); reflexivity.
  - eexists. split; [vm_compute; reflexivity | reflexivity].
  - eexists. vm_compute. reflexivity.
Qed.

Lemma for_each_setitem_all_return {A : Type} (lab : A -> Z) (col : A -> outcome series)
    (items : list A) :
  forall acc out,
    for_each (fun acc p => s <- col p ;; Returns (setitem acc (lab p) s)) acc items
    = Returns out ->
    forall p, In p items -> exists s, col p = Returns s.
Proof.
  induction items as [|q items IH]; intros acc out H p Hp; [destruct Hp|].
  simpl in H. destruct (col q) as [s|e] eqn:Hq; cbn [bind] in H; [|discriminate].
  destruct Hp as [<-|Hp]; [eauto | eapply IH; eauto].
Qed.

Lemma find_none_all {A : Type} (f : A -> bool) (l : list A) :
  (forall x, In x l -> f x = false) -> find f l = None.
Proof.
  induction l as [|a l IH]; intros H; simpl; [reflexivity|].
  rewrite (H a (or_introl eq_refl)). apply IH. intros x Hx. apply H. now right.
Qed.

(** The last pair of a mapping that targets a given new id. *)
Lemma find_last_target (m1 m2 : variable_mapping_t) (old new : Z) :
  (forall p, In p m2 -> snd p <> new) ->
  find (fun p : Z * Z => snd p =? new) (rev (m1 ++ (old, new) :: m2))
  = Some (old, new).
Proof.
  intros H. rewrite rev_app_distr. simpl. rewrite <- app_assoc, find_app.
  rewrite find_none_all.
  - simpl. now rewrite Z.eqb_refl.
  - intros p Hp. apply in_rev in Hp. apply Z.eqb_neq. now apply H.
Qed.

Lemma zeros_frame_inv (df df0 : DataFrame) (ids : list Z) :
  zeros_frame df ids = Returns df0 -> are_columns df ids.
Proof.
  intros H v Hv. destruct (has_column (columns df) v) eqn:Hhas; [reflexivity|].
  exfalso. unfold zeros_frame in H.
  destruct (select_columns_raises
              (map (fun c => (fst c, zeros_like (snd c))) (columns df)) ids v Hv)
    as [missing Hm].
  - unfold has_column in *.
    rewrite (lookup_column_map (fun _ => zeros_like)).
    now destruct (lookup_column (columns df) v).
  - rewrite Hm in H. discriminate.
Qed.

Lemma upgrade_change_unfold (prim : bard_primitive) (df : DataFrame)
    (ids : list Z) (mapping : variable_mapping_t) :
  AnomalyUpgradeChange.get_score_df prim df ids mapping =
  (df0 <- zeros_frame df ids ;;
   for_each (fun acc p => s <- upgrade_change_scores prim df p ;;
                          Returns (setitem acc (snd p) s)) df0 mapping).
Proof.
  unfold AnomalyUpgradeChange.get_score_df.
  destruct (zeros_frame df ids) as [df0|e]; cbn [bind]; [|reflexivity].
  apply for_each_ext. intros st [old new]. unfold upgrade_change_scores.
  cbn [fst snd].
  destruct (getitem df new) as [s_new|e]; cbn [bind]; [|reflexivity].
  destruct (estimate_bard_epsilon s_new) as [eps|e]; cbn [bind]; [|reflexivity].
  destruct (getitem df old) as [s_old|e]; cbn [bind]; [|reflexivity].
  reflexivity.
Qed.

Lemma upgrade_change_scores_inv (prim : bard_primitive) (df : DataFrame)
    (old new : Z) (scores : series) :
  upgrade_change_scores prim df (old, new) = Returns scores ->
  exists s_old s_new eps,
    getitem df old = Returns s_old /\
    getitem df new = Returns s_new /\
    estimate_bard_epsilon s_new = Returns eps /\
    bard prim s_old s_new eps = Returns scores /\
    scores = zip_with (bard_cell prim eps) s_old s_new.
Proof.
  unfold upgrade_change_scores. cbn [fst snd]. intros H.
  destruct (getitem df new) as [s_new|e]; cbn [bind] in H; [|discriminate].
  destruct (estimate_bard_epsilon s_new) as [eps|e] eqn:Heps; cbn [bind] in H;
    [|discriminate].
  destruct (getitem df old) as [s_old|e]; cbn [bind] in H; [|discriminate].
  exists s_old, s_new, eps. repeat split; try assumption.
  unfold bard in H. destruct (bard_raises prim eps); [discriminate|].
  now inversion H.
Qed.




Lemma shared_target_example_well_formed : well_formed shared_target_example.
Proof. split; [reflexivity | repeat constructor]. Qed.


(** ** Missing-on-upgrade detector *)

Lemma option_map_id {A : Type} (x : option A) : option_map (fun a => a) x = x.
Proof. now destruct x. Qed.

Lemma lookup_loc_set (df out : DataFrame) (mask : list bool) (label : Z)
    (value : float) :
  loc_set df mask label value = Returns out ->
  entity_name out = entity_name df /\
  forall w,
    lookup_column (columns out) w =
    if w =? label
    then match lookup_column (columns df) label with
         | Some s => Some (set_where mask value s)
         | None => Some (map (fun m : bool => if m then value else None) mask)
         end
    else lookup_column (columns df) w.
Proof.
  unfold loc_set. destruct (has_column (columns df) label) eqn:Hhas.
  - intros H. inversion H; subst out; clear H. cbn [entity_name columns].
    split; [reflexivity|]. intros w.
    rewrite (map_ext _ (fun c => (fst c, (fun l s => if l =? label
                                                      then set_where mask value s
                                                      else s) (fst c) (snd c)))).
    2:{ intros [k c]. cbn [fst snd]. now destruct (k =? label). }
    rewrite (lookup_column_map
               (fun l s => if l =? label then set_where mask value s else s)).
    destruct (w =? label) eqn:Hw.
    + apply Z.eqb_eq in Hw. subst w. unfold has_column in Hhas.
      destruct (lookup_column (columns df) label); [|discriminate].
      reflexivity.
    + apply option_map_id.
  - destruct (nrows df); [discriminate|].
    intros H. inversion H; subst out; clear H. cbn [entity_name columns].
    split; [reflexivity|]. intros w.
    rewrite lookup_column_app. unfold has_column in Hhas. simpl.
    rewrite (Z.eqb_sym label w). destruct (w =? label) eqn:Hw.
    + apply Z.eqb_eq in Hw. subst w.
      now destruct (lookup_column (columns df) label).
    + now destruct (lookup_column (columns df) w).
Qed.

Lemma for_each_app_returns {A S : Type} (f : S -> A -> outcome S) (xs ys : list A)
    (st out : S) :
  for_each f st (xs ++ ys) = Returns out ->
  exists mid, for_each f st xs = Returns mid /\ for_each f mid ys = Returns out.
Proof.
  rewrite for_each_app. destruct (for_each f st xs) as [mid|e]; cbn [bind];
    [eauto | discriminate].
Qed.

Lemma for_each_returns_invariant {A S : Type} (I : S -> Prop)
    (body : S -> A -> outcome S) (xs : list A) :
  (forall st x, In x xs -> I st -> exists st', body st x = Returns st' /\ I st') ->
  forall st, I st -> exists out, for_each body st xs = Returns out /\ I out.
Proof.
  induction xs as [|x xs IH]; intros Hstep st Hst; simpl; [eauto|].
  destruct (Hstep st x (or_introl eq_refl) Hst) as (st' & -> & Hst'). cbn [bind].
  apply IH; [|exact Hst']. intros st0 y Hy. apply Hstep. now right.
Qed.

(** The body of the detector's loop. *)
Lemma upgrade_missing_unfold (df : DataFrame) (ids : list Z)
    (mapping : variable_mapping_t) :
  AnomalyUpgradeMissing.get_score_df df ids mapping =
  (df0 <- zeros_frame df ids ;;
   for_each (upgrade_missing_step df) df0 mapping).
Proof.
  unfold AnomalyUpgradeMissing.get_score_df.
  destruct (zeros_frame df ids) as [df0|e]; cbn [bind]; [|reflexivity].
  apply for_each_ext. now intros st [old new].
Qed.

Lemma upgrade_missing_other_targets (df : DataFrame) (items : variable_mapping_t)
    (w : Z) (acc out : DataFrame) :
  (forall p, In p items -> snd p <> w) ->
  for_each (upgrade_missing_step df) acc items = Returns out ->
  lookup_column (columns out) w = lookup_column (columns acc) w.
Proof.
  intros Hne Hloop.
  apply (for_each_invariant
           (fun st => lookup_column (columns st) w = lookup_column (columns acc) w)
           (upgrade_missing_step df) items) with (st := acc);
    [|reflexivity|exact Hloop].
  intros st p st' Hp Hst Hbody. unfold upgrade_missing_step in Hbody.
  destruct (getitem df (fst p)) as [s_old|]; cbn [bind] in Hbody; [|discriminate].
  destruct (getitem df (snd p)) as [s_new|]; cbn [bind] in Hbody; [|discriminate].
  destruct (lookup_loc_set _ _ _ _ _ Hbody) as [_ Hl].
  rewrite Hl, <- Hst.
  destruct (w =? snd p) eqn:Hw; [|reflexivity].
  apply Z.eqb_eq in Hw. exfalso. apply (Hne p Hp). auto.
Qed.

(** C6, as stated, fails on two kinds of input.  When two old ids share a
    new id the flags of both pairs accumulate: with {1: 3, 2: 3} the first
    row is flagged although indicator 1 is null there.  When the new id is
    not listed in variable_ids its column is created on the fly and is null,
    not 0, outside the flagged rows. *)
Lemma upgrade_missing_flags_beyond_pair :
  (In (1, 3) [(1, 3); (2, 3)] /\
   cell lost_example 1 0 = Some None /\
   exists out,
     AnomalyUpgradeMissing.get_score_df lost_example [3] [(1, 3); (2, 3)]
     = Returns out /\
     cell out 3 0 = Some (Some 1%Q)) /\
  (In (2, 3) [(2, 3)] /\
   cell lost_example 2 1 = Some (Some 1%Q) /\
   cell lost_example 3 1 = Some (Some 1%Q) /\
   exists out,
     AnomalyUpgradeMissing.get_score_df lost_example [] [(2, 3)] = Returns out /\
     cell out 3 1 = Some None).
Proof.
  split.
  - split; [now left|]. split; [reflexivity|].
    eexists. split; [vm_compute; reflexivity | reflexivity].
  - split; [now left|]. split; [reflexivity|]. split; [reflexivity|].
    eexists. split; [vm_compute; reflexivity | reflexivity].
Qed.

Lemma loc_set_returns (df : DataFrame) (mask : list bool) (label : Z) (value : float) :
  has_column (columns df) label = true \/ (0 < nrows df)%nat ->
  exists out, loc_set df mask label value = Returns out.
Proof.
  intros H. unfold loc_set. destruct (has_column (columns df) label); [eauto|].
  destruct H as [H|H]; [discriminate|].
  destruct (nrows df); [lia | eauto].
Qed.

(** C6, amended: for every pair (old_id, new_id) of the mapping whose new_id
    is listed in variable_ids and is the target of no other pair, the score
    column of new_id is 1 at exactly the rows where the old_id cell is
    non-null and the new_id cell is null, and 0 at every other row; every
    score of the column is 0 or 1, and no scoring primitive takes part. *)
Theorem upgrade_missing_flags_of_pair (df : DataFrame) (ids : list Z)
    (m1 m2 : variable_mapping_t) (old new : Z) :
  well_formed df -> In new ids ->
  (forall p, In p (m1 ++ m2) -> snd p <> new) ->
  (forall out,
      AnomalyUpgradeMissing.get_score_df df ids (m1 ++ (old, new) :: m2) = Returns out ->
      exists s_old s_new,
        getitem df old = Returns s_old /\
        getitem df new = Returns s_new /\
        forall i, (i < nrows df)%nat ->
          cell out new i =
          Some (Some (if notnull (nth i s_old None) && isnull (nth i s_new None)
                      then 1 else 0)%Q)) /\
  (are_columns df ids ->
   are_columns df (map fst (m1 ++ (old, new) :: m2)) ->
   are_columns df (map snd (m1 ++ (old, new) :: m2)) ->
   (0 < nrows df)%nat \/ incl (map snd (m1 ++ (old, new) :: m2)) ids ->
   exists out,
     AnomalyUpgradeMissing.get_score_df df ids (m1 ++ (old, new) :: m2) = Returns out).
Proof.
  intros Hwf Hnew Hothers. split.
  - intros out Hout. rewrite upgrade_missing_unfold in Hout.
    destruct (zeros_frame df ids) as [df0|e] eqn:Hz; cbn [bind] in Hout; [|discriminate].
    pose proof (zeros_frame_inv df df0 ids Hz) as Hids.
    rewrite (zeros_frame_returns df ids Hids) in Hz. inversion Hz as [Hdf0]. clear Hz.
    destruct (for_each_app_returns _ _ _ _ _ Hout) as (mid1 & Hm1 & Hrest).
    simpl in Hrest.
    destruct (upgrade_missing_step df mid1 (old, new)) as [mid2|e] eqn:Hstep;
      cbn [bind] in Hrest; [|discriminate].
    unfold upgrade_missing_step in Hstep. cbn [fst snd] in Hstep.
    destruct (getitem df old) as [s_old|e] eqn:Ho; cbn [bind] in Hstep; [|discriminate].
    destruct (getitem df new) as [s_new|e] eqn:Hn; cbn [bind] in Hstep; [|discriminate].
    exists s_old, s_new. split; [reflexivity|]. split; [reflexivity|].
    intros i Hi.
    assert (H0 : lookup_column (columns df0) new = Some (zeros_like s_new)).
    { rewrite <- Hdf0. cbn [columns].
      rewrite (lookup_column_labels
                 (fun l => match lookup_column (columns df) l with
                           | Some s => zeros_like s
                           | None => []
                           end)).
      rewrite (proj2 (existsb_eqb_In new ids) Hnew).
      unfold getitem in Hn. destruct (lookup_column (columns df) new); [|discriminate].
      now inversion Hn. }
    assert (H1 : lookup_column (columns mid1) new = Some (zeros_like s_new)).
    { rewrite <- H0. apply (upgrade_missing_other_targets df m1); [|exact Hm1].
      intros p Hp. apply Hothers. apply in_or_app. now left. }
    assert (H2 : lookup_column (columns out) new
                 = Some (set_where
                           (zip_with (fun o n => notnull o && isnull n) s_old s_new)
                           (Some 1%Q) (zeros_like s_new))).
    { rewrite (upgrade_missing_other_targets df m2 new mid2 out);
        [| intros p Hp; apply Hothers, in_or_app; now right | exact Hrest].
      destruct (lookup_loc_set _ _ _ _ _ Hstep) as [_ Hl].
      now rewrite Hl, Z.eqb_refl, H1. }
    unfold cell. rewrite H2, nth_error_set_where, nth_error_zip_with.
    pose proof (column_length df old s_old Hwf Ho) as Hlo.
    pose proof (column_length df new s_new Hwf Hn) as Hln.
    rewrite (nth_error_nth' s_old None), (nth_error_nth' s_new None) by lia.
    unfold zeros_like. rewrite nth_error_map, (nth_error_nth' s_new None) by lia.
    simpl. now destruct (notnull (nth i s_old None) && isnull (nth i s_new None)).
  - intros Hids Ho Hn Hrows. rewrite upgrade_missing_unfold.
    rewrite (zeros_frame_returns df ids Hids). cbn [bind].
    set (df0 := {| entity_name := entity_name df; year := year df; columns := _ |}).
    set (I := fun st : DataFrame =>
                entity_name st = entity_name df /\
                forall v, In v ids -> has_column (columns st) v = true).
    destruct (for_each_returns_invariant I (upgrade_missing_step df)
                (m1 ++ (old, new) :: m2)) with (st := df0) as (out & Hout & _).
    + intros st p Hp [He Hcols]. unfold upgrade_missing_step.
      destruct (getitem_returns df (fst p) (Ho _ (in_map fst _ _ Hp))) as (so & -> & _).
      destruct (getitem_returns df (snd p) (Hn _ (in_map snd _ _ Hp))) as (sn & -> & _).
      cbn [bind].
      destruct (loc_set_returns st
                  (zip_with (fun o n => notnull o && isnull n) so sn)
                  (snd p) (Some 1%Q)) as [st' Hst'].
      { destruct Hrows as [Hpos|Hincl].
        - right. unfold nrows in *. now rewrite He.
        - left. apply Hcols, Hincl. now apply in_map. }
      exists st'. split; [exact Hst'|].
      destruct (lookup_loc_set _ _ _ _ _ Hst') as [He' Hl].
      split; [congruence|]. intros v Hv. unfold has_column. rewrite Hl.
      specialize (Hcols v Hv). unfold has_column in Hcols.
      destruct (v =? snd p); [|exact Hcols].
      now destruct (lookup_column (columns st) (snd p)).
    + split; [reflexivity|]. intros v Hv. unfold has_column, df0. cbn [columns].
      rewrite (lookup_column_labels
                 (fun l => match lookup_column (columns df) l with
                           | Some s => zeros_like s
                           | None => []
                           end)).
      now rewrite (proj2 (existsb_eqb_In v ids) Hv).
    + eauto.
Qed.

Lemma lost_example_well_formed : well_formed lost_example.
Proof. split; [reflexivity | repeat constructor]. Qed.

Lemma upgrade_missing_flags_of_pair_witness :
  exists out,
    AnomalyUpgradeMissing.get_score_df lost_example [3] [(2, 3)] = Returns out /\
    exists s_old s_new,
      getitem lost_example 2 = Returns s_old /\
      getitem lost_example 3 = Returns s_new /\
      forall i, (i < nrows lost_example)%nat ->
        cell out 3 i =
        Some (Some (if notnull (nth i s_old None) && isnull (nth i s_new None)
                    then 1 else 0)%Q).
Proof.
  destruct (upgrade_missing_flags_of_pair lost_example [3] [] [] 2 3) as [H _].
  - exact lost_example_well_formed.
  - now left.
  - intros p [].
  - eexists. split; [vm_compute; reflexivity|].
    apply H. vm_compute. reflexivity.
Defined.

(** * Further properties of the scoring core *)

(** ** Quantiles of a sorted sample *)

Lemma insert_Q_perm (x : Q) (l : list Q) : Permutation (insert_Q x l) (x :: l).
Proof.
  induction l as [|a l IH]; simpl; [reflexivity|].
  destruct (Qle_bool x a); [reflexivity|]. rewrite IH. apply perm_swap.
Qed.

Lemma sort_Q_perm (l : list Q) : Permutation (sort_Q l) l.
Proof.
  unfold sort_Q. induction l as [|a l IH]; simpl; [reflexivity|].
  rewrite insert_Q_perm. now constructor.
Qed.

Lemma insert_Q_sorted (x : Q) (l : list Q) :
  StronglySorted Qle l -> StronglySorted Qle (insert_Q x l).
Proof.
  induction l as [|a l IH]; intros Hs; simpl.
  - constructor; constructor.
  - apply StronglySorted_inv in Hs. destruct Hs as [Hs Hall].
    destruct (Qle_bool x a) eqn:Hle.
    + apply Qle_bool_iff in Hle.
      constructor; [constructor; assumption|].
      constructor; [exact Hle|].
      rewrite Forall_forall in *. intros z Hz.
      eapply Qle_trans; [exact Hle | now apply Hall].
    + constructor; [now apply IH|].
      rewrite Forall_forall in *. intros z Hz.
      apply (Permutation_in _ (insert_Q_perm x l)) in Hz.
      destruct Hz as [<-|Hz]; [|now apply Hall].
      apply Qlt_le_weak, Qnot_le_lt. intros H. apply Qle_bool_iff in H. congruence.
Qed.

Lemma sort_Q_sorted (l : list Q) : StronglySorted Qle (sort_Q l).
Proof.
  unfold sort_Q. induction l as [|a l IH]; simpl; [constructor|].
  now apply insert_Q_sorted.
Qed.

Lemma nth_sorted_le (l : list Q) (d : Q) (i j : nat) :
  StronglySorted Qle l -> (i <= j)%nat -> (j < length l)%nat ->
  (nth i l d <= nth j l d)%Q.
Proof.
  intros Hs Hij Hj. destruct (Nat.eq_dec i j) as [->|Hne]; [apply Qle_refl|].
  apply (StronglySorted_nth_error Qle l Hs i j); [lia| |];
    apply nth_error_nth'; lia.
Qed.

(** The linear interpolation lies between the two sample values it
    interpolates, and moves up with the quantile. *)
Lemma quantile_monotone (values : list Q) (q1 q2 : Q) (v1 v2 : Q) :
  (0 <= q1)%Q -> (q1 <= q2)%Q -> (q2 <= 1)%Q ->
  quantile values q1 = Some v1 -> quantile values q2 = Some v2 ->
  (v1 <= v2)%Q.
Proof.
  intros H0 H12 H1. unfold quantile.
  destruct values as [|v0 rest] eqn:Hvalues; [discriminate|]. rewrite <- Hvalues.
  set (sorted := sort_Q values).
  set (n := Z.of_nat (length values)).
  assert (Hn : 1 <= n) by (unfold n; rewrite Hvalues; simpl; lia).
  assert (Hlen : length sorted = length values)
    by (apply Permutation_length, sort_Q_perm).
  pose proof (sort_Q_sorted values) as Hsorted. fold sorted in Hsorted.
  set (h1 := (inject_Z (n - 1) * q1)%Q). set (h2 := (inject_Z (n - 1) * q2)%Q).
  assert (Hn1 : (0 <= inject_Z (n - 1))%Q).
  { change 0%Q with (inject_Z 0). rewrite <- Zle_Qle. lia. }
  assert (Hh1 : (0 <= h1)%Q) by (unfold h1; nra).
  assert (Hh12 : (h1 <= h2)%Q) by (unfold h1, h2; nra).
  assert (Hh2 : (h2 <= inject_Z (n - 1))%Q) by (unfold h2; nra).
  assert (Hfloor : forall h, (0 <= h)%Q -> (h <= inject_Z (n - 1))%Q ->
             0 <= Qfloor h <= n - 1 /\
             (0 <= h - inject_Z (Qfloor h))%Q /\ (h - inject_Z (Qfloor h) <= 1)%Q).
  { intros h Ha Hb. split; [split|split].
    - rewrite <- (Qfloor_Z 0). now apply Qfloor_resp_le.
    - rewrite <- (Qfloor_Z (n - 1)). now apply Qfloor_resp_le.
    - pose proof (Qfloor_le h). lra.
    - pose proof (Qlt_floor h) as Hlt. rewrite inject_Z_plus in Hlt.
      change (inject_Z 1) with 1%Q in Hlt. lra. }
  destruct (Hfloor h1 Hh1 (Qle_trans _ _ _ Hh12 Hh2)) as ([Ha1 Hb1] & Hf1 & Hg1).
  destruct (Hfloor h2 (Qle_trans _ _ _ Hh1 Hh12) Hh2) as ([Ha2 Hb2] & Hf2 & Hg2).
  pose proof (Qfloor_resp_le h1 h2 Hh12) as Hlo.
  set (lo1 := Qfloor h1) in *. set (lo2 := Qfloor h2) in *.
  assert (Hnth : forall a b, 0 <= a -> a <= b -> b <= n - 1 ->
             (nth (Z.to_nat a) sorted v0 <= nth (Z.to_nat b) sorted v0)%Q).
  { intros a b Ha Hab Hb. apply nth_sorted_le; [exact Hsorted|lia|].
    rewrite Hlen. unfold n in Hb. lia. }
  intros E1 E2. inversion E1 as [E1']. inversion E2 as [E2']. clear E1 E2 E1' E2'.
  pose proof (Hnth lo1 (Z.min (lo1 + 1) (n - 1)) Ha1 ltac:(lia) ltac:(lia)) as Hs1.
  pose proof (Hnth lo2 (Z.min (lo2 + 1) (n - 1)) Ha2 ltac:(lia) ltac:(lia)) as Hs2.
  destruct (Z.eq_dec lo1 lo2) as [Heq|Hne].
  - rewrite <- Heq in *.
    set (a := nth (Z.to_nat lo1) sorted v0) in *.
    set (b := nth (Z.to_nat (Z.min (lo1 + 1) (n - 1))) sorted v0) in *.
    nra.
  - pose proof (Hnth (Z.min (lo1 + 1) (n - 1)) lo2 ltac:(lia) ltac:(lia) ltac:(lia))
      as Hmid.
    set (a1 := nth (Z.to_nat lo1) sorted v0) in *.
    set (b1 := nth (Z.to_nat (Z.min (lo1 + 1) (n - 1))) sorted v0) in *.
    set (a2 := nth (Z.to_nat lo2) sorted v0) in *.
    set (b2 := nth (Z.to_nat (Z.min (lo2 + 1) (n - 1))) sorted v0) in *.
    nra.
Qed.

Lemma quantile_between (values : list Q) (q a b v : Q) :
  (forall x, In x values -> (a <= x)%Q /\ (x <= b)%Q) ->
  (0 <= q)%Q -> (q <= 1)%Q -> quantile values q = Some v ->
  (a <= v)%Q /\ (v <= b)%Q.
Proof.
  intros Hbound H0 H1. unfold quantile.
  destruct values as [|v0 rest] eqn:Hvalues; [discriminate|]. rewrite <- Hvalues.
  set (sorted := sort_Q values).
  set (n := Z.of_nat (length values)).
  assert (Hn : 1 <= n) by (unfold n; rewrite Hvalues; simpl; lia).
  assert (Hlen : length sorted = length values)
    by (apply Permutation_length, sort_Q_perm).
  set (h := (inject_Z (n - 1) * q)%Q).
  assert (Hn1 : (0 <= inject_Z (n - 1))%Q).
  { change 0%Q with (inject_Z 0). rewrite <- Zle_Qle. lia. }
  assert (Hh0 : (0 <= h)%Q) by (unfold h; nra).
  assert (Hh1 : (h <= inject_Z (n - 1))%Q) by (unfold h; nra).
  assert (Ha : 0 <= Qfloor h)
    by (rewrite <- (Qfloor_Z 0); now apply Qfloor_resp_le).
  assert (Hb : Qfloor h <= n - 1)
    by (rewrite <- (Qfloor_Z (n - 1)); now apply Qfloor_resp_le).
  assert (Hf0 : (0 <= h - inject_Z (Qfloor h))%Q) by (pose proof (Qfloor_le h); lra).
  assert (Hf1 : (h - inject_Z (Qfloor h) <= 1)%Q).
  { pose proof (Qlt_floor h) as Hlt. rewrite inject_Z_plus in Hlt.
    change (inject_Z 1) with 1%Q in Hlt. lra. }
  assert (Hin : forall k, 0 <= k -> k <= n - 1 ->
             (a <= nth (Z.to_nat k) sorted v0)%Q /\ (nth (Z.to_nat k) sorted v0 <= b)%Q).
  { intros k Hk0 Hk1. apply Hbound. rewrite <- Hvalues.
    apply (Permutation_in _ (sort_Q_perm values)). apply nth_In.
    fold sorted. rewrite Hlen. unfold n in Hk1. lia. }
  destruct (Hin (Qfloor h) Ha Hb) as [Hlo1 Hlo2].
  destruct (Hin (Z.min (Qfloor h + 1) (n - 1)) ltac:(lia) ltac:(lia)) as [Hhi1 Hhi2].
  set (x := nth (Z.to_nat (Qfloor h)) sorted v0) in *.
  set (y := nth (Z.to_nat (Z.min (Qfloor h + 1) (n - 1))) sorted v0) in *.
  set (f := (h - inject_Z (Qfloor h))%Q) in *.
  assert (P1 : (0 <= (x - a) * (1 - f))%Q) by (apply Qmult_le_0_compat; lra).
  assert (P2 : (0 <= (y - a) * f)%Q) by (apply Qmult_le_0_compat; lra).
  assert (P3 : (0 <= (b - x) * (1 - f))%Q) by (apply Qmult_le_0_compat; lra).
  assert (P4 : (0 <= (b - y) * f)%Q) by (apply Qmult_le_0_compat; lra).
  intros E. injection E as E. subst v. split; lra.
Qed.

Lemma nonzero_abs_values_nonneg (s : series) (x : Q) :
  In x (nonzero_abs_values s) -> (0 <= x)%Q.
Proof.
  unfold nonzero_abs_values. rewrite in_map_iff. intros (y & <- & _).
  apply Qabs_nonneg.
Qed.

Lemma estimate_bard_epsilon_value (s : series) (eps : Q) :
  estimate_bard_epsilon s = Returns (Some eps) ->
  exists q95 q05,
    quantile (nonzero_abs_values s) (95 # 100) = Some q95 /\
    quantile (nonzero_abs_values s) (5 # 100) = Some q05 /\
    eps = ((q95 - q05) / 10)%Q.
Proof.
  unfold estimate_bard_epsilon. rewrite positive_values_spec. intros H.
  destruct (quantile (nonzero_abs_values s) (95 # 100)) as [q95|]; [|discriminate].
  destruct (quantile (nonzero_abs_values s) (5 # 100)) as [q05|]; [|discriminate].
  exists q95, q05. simpl in H. inversion H. auto.
Qed.

Lemma estimate_bard_epsilon_bounds (s : series) (a b eps : Q) :
  (forall x, In x (nonzero_abs_values s) -> (a <= x)%Q /\ (x <= b)%Q) ->
  estimate_bard_epsilon s = Returns (Some eps) ->
  (0 <= eps)%Q /\ (eps <= (b - a) / 10)%Q.
Proof.
  intros Hbound Heps.
  destruct (estimate_bard_epsilon_value s eps Heps) as (q95 & q05 & H95 & H05 & ->).
  assert (Hmono : (q05 <= q95)%Q).
  { apply (quantile_monotone (nonzero_abs_values s) (5 # 100) (95 # 100));
      auto; discriminate. }
  destruct (quantile_between _ (95 # 100) a b q95 Hbound) as [_ Hhi];
    [discriminate | discriminate | exact H95 |].
  destruct (quantile_between _ (5 # 100) a b q05 Hbound) as [Hlo _];
    [discriminate | discriminate | exact H05 |].
  split.
  - apply Qle_shift_div_l; [reflexivity|]. lra.
  - apply Qle_shift_div_r; [reflexivity|].
    assert (E : ((b - a) / 10 * 10 == b - a)%Q) by (field). lra.
Qed.

(** ** Epsilon estimator: range, degenerate scale, ignored cells *)

(** X1: the estimate is NaN exactly when the series has no non-zero value;
    otherwise it is never negative, and at most a tenth of the spread of the
    non-zero absolute values. *)
Theorem estimate_bard_epsilon_range (s : series) (a b : Q) :
  (forall x, In x (nonzero_abs_values s) -> (a <= x)%Q /\ (x <= b)%Q) ->
  (estimate_bard_epsilon s = Returns None <-> nonzero_abs_values s = []) /\
  forall eps, estimate_bard_epsilon s = Returns (Some eps) ->
              (0 <= eps)%Q /\ (eps <= (b - a) / 10)%Q.
Proof.
  intros Hbound. split.
  - unfold estimate_bard_epsilon. rewrite positive_values_spec. split.
    + intros H. destruct (nonzero_abs_values s) as [|v l]; [reflexivity|].
      discriminate H.
    + intros ->. reflexivity.
  - intros eps Heps. now apply (estimate_bard_epsilon_bounds s a b).
Qed.

Lemma estimate_bard_epsilon_range_witness :
  (estimate_bard_epsilon [Some 10; None; Some (-1000); Some 3]%Q = Returns None
   <-> nonzero_abs_values [Some 10; None; Some (-1000); Some 3]%Q = []) /\
  forall eps,
    estimate_bard_epsilon [Some 10; None; Some (-1000); Some 3]%Q = Returns (Some eps) ->
    (0 <= eps)%Q /\ (eps <= (1000 - 3) / 10)%Q.
Proof.
  apply (estimate_bard_epsilon_range [Some 10; None; Some (-1000); Some 3]%Q 3 1000).
  intros x Hx. vm_compute in Hx.
  destruct Hx as [<-|[<-|[<-|[]]]]; split; discriminate.
Defined.

(** X2: when all the non-zero values of a series have the same absolute
    value (a single one included) the estimated scale is 0. *)
Theorem estimate_bard_epsilon_degenerate (s : series) (x : Q) :
  nonzero_abs_values s <> [] ->
  (forall y, In y (nonzero_abs_values s) -> (y == x)%Q) ->
  exists eps, estimate_bard_epsilon s = Returns (Some eps) /\ (eps == 0)%Q.
Proof.
  intros Hne Hall.
  destruct (quantile_defined _ (95 # 100) Hne) as [q95 H95].
  destruct (quantile_defined _ (5 # 100) Hne) as [q05 H05].
  assert (Heps : estimate_bard_epsilon s = Returns (Some ((q95 - q05) / 10)%Q)).
  { unfold estimate_bard_epsilon. rewrite positive_values_spec, H95, H05.
    reflexivity. }
  eexists. split; [exact Heps|].
  assert (Hb : forall y, In y (nonzero_abs_values s) -> (x <= y)%Q /\ (y <= x)%Q).
  { intros y Hy. rewrite (Hall y Hy). split; apply Qle_refl. }
  destruct (estimate_bard_epsilon_bounds s x x _ Hb Heps) as [Hlo Hhi].
  assert (E : ((x - x) / 10 == 0)%Q) by field. lra.
Qed.

Lemma estimate_bard_epsilon_degenerate_witness :
  exists eps,
    estimate_bard_epsilon [Some 7; Some 0; Some (-7); None; Some (14 # 2)]%Q
    = Returns (Some eps) /\ (eps == 0)%Q.
Proof.
  apply (estimate_bard_epsilon_degenerate
           [Some 7; Some 0; Some (-7); None; Some (14 # 2)]%Q 7).
  - vm_compute. discriminate.
  - intros y Hy. vm_compute in Hy.
    destruct Hy as [<-|[<-|[<-|[]]]]; reflexivity.
Defined.

Lemma dropna_app (s1 s2 : series) : dropna (s1 ++ s2) = dropna s1 ++ dropna s2.
Proof.
  induction s1 as [|[q|] s1 IH]; simpl; [reflexivity | now rewrite IH | exact IH].
Qed.

Lemma estimate_bard_epsilon_ext (s1 s2 : series) :
  nonzero_abs_values s1 = nonzero_abs_values s2 ->
  estimate_bard_epsilon s1 = estimate_bard_epsilon s2.
Proof.
  intros H. unfold estimate_bard_epsilon. now rewrite !positive_values_spec, H.
Qed.

(** X3: the estimator looks at magnitudes of non-zero values only: a null or
    a zero placed anywhere in the series, and a change of sign of all the
    values, leave the estimate as it is. *)
Theorem estimate_bard_epsilon_ignores (s1 s2 : series) (x : float) :
  ignored_by_estimator x ->
  estimate_bard_epsilon (s1 ++ x :: s2) = estimate_bard_epsilon (s1 ++ s2) /\
  estimate_bard_epsilon (negate (s1 ++ s2)) = estimate_bard_epsilon (s1 ++ s2).
Proof.
  intros Hx. split; apply estimate_bard_epsilon_ext; unfold nonzero_abs_values.
  - rewrite !dropna_app, !filter_app, !map_app. do 2 f_equal.
    destruct x as [q|]; simpl; [|reflexivity].
    simpl in Hx. apply Qeq_bool_iff in Hx. now rewrite Hx.
  - induction (s1 ++ s2) as [|[q|] l IH]; simpl; [reflexivity| |exact IH].
    assert (E : Qeq_bool (- q) 0 = Qeq_bool q 0).
    { destruct (Qeq_bool q 0) eqn:Hq.
      - apply Qeq_bool_iff in Hq. apply Qeq_bool_iff. rewrite Hq. reflexivity.
      - destruct (Qeq_bool (- q) 0) eqn:Hq'; [|reflexivity].
        apply Qeq_bool_iff in Hq'. apply Qeq_bool_neq in Hq. exfalso. apply Hq.
        lra. }
    rewrite E. destruct (Qeq_bool q 0); simpl; [exact IH|].
    rewrite IH. f_equal. destruct q as [n d]. unfold Qabs, Qopp. simpl.
    now rewrite Z.abs_opp.
Qed.

Lemma estimate_bard_epsilon_ignores_witness :
  estimate_bard_epsilon ([Some 10; Some 3] ++ Some (0 # 5) :: [Some 1000])%Q
  = estimate_bard_epsilon ([Some 10; Some 3] ++ [Some 1000])%Q /\
  estimate_bard_epsilon (negate ([Some 10; Some 3] ++ [Some 1000]))%Q
  = estimate_bard_epsilon ([Some 10; Some 3] ++ [Some 1000])%Q.
Proof.
  apply (estimate_bard_epsilon_ignores [Some 10; Some 3]%Q [Some 1000]%Q
           (Some (0 # 5)%Q)).
  reflexivity.
Defined.

(** ** Score reducer: order of the output, tables without repeated pairs *)

Lemma drop_duplicates_unseen (l : list LongRow) :
  forall seen r, In r (drop_duplicates seen l) ->
                 existsb (key_eqb (subset_key r)) seen = false.
Proof.
  induction l as [|a l IH]; intros seen r Hin; simpl in Hin; [destruct Hin|].
  destruct (existsb (key_eqb (subset_key a)) seen) eqn:Ha.
  - now apply IH.
  - destruct Hin as [<-|Hin]; [exact Ha|].
    apply IH in Hin. simpl in Hin. now apply orb_false_iff in Hin.
Qed.

Lemma drop_duplicates_NoDup (l : list LongRow) :
  forall seen, NoDup (map subset_key (drop_duplicates seen l)).
Proof.
  induction l as [|a l IH]; intros seen; simpl; [constructor|].
  destruct (existsb (key_eqb (subset_key a)) seen); [apply IH|].
  simpl. constructor; [|apply IH].
  intros Hin. apply in_map_iff in Hin. destruct Hin as (r & Hk & Hr).
  apply drop_duplicates_unseen in Hr. simpl in Hr.
  rewrite Hk, key_eqb_refl in Hr. discriminate.
Qed.

Lemma drop_duplicates_sorted (l : list LongRow) :
  forall seen, StronglySorted score_ge l ->
               StronglySorted score_ge (drop_duplicates seen l).
Proof.
  induction l as [|a l IH]; intros seen Hs; simpl; [constructor|].
  apply StronglySorted_inv in Hs. destruct Hs as [Hs Hall].
  destruct (existsb (key_eqb (subset_key a)) seen); [now apply IH|].
  constructor; [now apply IH|].
  rewrite Forall_forall in *. intros r Hr. apply Hall.
  eapply drop_duplicates_incl; eauto.
Qed.

(** X4: the reducer's output is ordered by descending score, carries no null
    score and no (variable_id, entity_name) pair twice. *)
Theorem get_long_format_score_df_ordered
    (sort_values : list LongRow -> list LongRow) (df : DataFrame) :
  sorts_descending sort_values ->
  StronglySorted score_ge (get_long_format_score_df sort_values df) /\
  NoDup (map subset_key (get_long_format_score_df sort_values df)) /\
  forall r, In r (get_long_format_score_df sort_values df) ->
            row_anomaly_score r <> None.
Proof.
  intros Hsort. split; [|split].
  - apply drop_duplicates_sorted. apply (Hsort _).
  - apply drop_duplicates_NoDup.
  - intros r Hr. apply (reducer_incl _ _ _ Hsort) in Hr.
    apply fillna0_long_key in Hr. destruct Hr as (r0 & _ & ->). simpl.
    now destruct (row_anomaly_score r0).
Qed.

Lemma get_long_format_score_df_ordered_witness :
  StronglySorted score_ge
    (get_long_format_score_df sort_values_stable reducer_zero_example) /\
  NoDup (map subset_key
           (get_long_format_score_df sort_values_stable reducer_zero_example)) /\
  forall r, In r (get_long_format_score_df sort_values_stable reducer_zero_example) ->
            row_anomaly_score r <> None.
Proof.
  apply (get_long_format_score_df_ordered sort_values_stable reducer_zero_example).
  exact sort_values_stable_sorts.
Defined.

Lemma drop_duplicates_nothing (l : list LongRow) :
  forall seen,
    NoDup (map subset_key l) ->
    (forall r, In r l -> existsb (key_eqb (subset_key r)) seen = false) ->
    drop_duplicates seen l = l.
Proof.
  induction l as [|a l IH]; intros seen Hnd Hseen; simpl; [reflexivity|].
  rewrite (Hseen a (or_introl eq_refl)). f_equal.
  inversion Hnd as [|? ? Hnotin Hnd']; subst. apply IH; [exact Hnd'|].
  intros r Hr. simpl. rewrite (Hseen r (or_intror Hr)), orb_false_r.
  destruct (key_eqb (subset_key r) (subset_key a)) eqn:Hk; [|reflexivity].
  apply key_eqb_eq in Hk. exfalso. apply Hnotin. rewrite <- Hk. now apply in_map.
Qed.

Lemma subset_key_fillna0_long (l : list LongRow) :
  map subset_key (fillna0_long l) = map subset_key l.
Proof. unfold fillna0_long. rewrite map_map. reflexivity. Qed.

(** X5: when no (indicator, entity) pair occurs at two rows of the table
    (every entity has a single time point; an empty table included) the
    reducer drops nothing: its output is the whole long table, zero-filled
    and sorted. *)
Theorem get_long_format_score_df_keeps_single_points
    (sort_values : list LongRow -> list LongRow) (df : DataFrame) :
  sorts_descending sort_values ->
  NoDup (map subset_key (melt df)) ->
  get_long_format_score_df sort_values df = sort_values (fillna0_long (melt df)) /\
  Permutation (get_long_format_score_df sort_values df) (fillna0_long (melt df)).
Proof.
  intros Hsort Hnd.
  assert (E : get_long_format_score_df sort_values df
              = sort_values (fillna0_long (melt df))).
  { unfold get_long_format_score_df. apply drop_duplicates_nothing; [|reflexivity].
    apply (Permutation_NoDup
             (l := map subset_key (fillna0_long (melt df)))).
    - apply Permutation_map, Permutation_sym, (Hsort _).
    - now rewrite subset_key_fillna0_long. }
  split; [exact E|]. rewrite E. apply (Hsort _).
Qed.

Lemma get_long_format_score_df_keeps_single_points_witness :
  get_long_format_score_df sort_values_stable single_points_example
  = sort_values_stable (fillna0_long (melt single_points_example)) /\
  Permutation (get_long_format_score_df sort_values_stable single_points_example)
    (fillna0_long (melt single_points_example)).
Proof.
  apply (get_long_format_score_df_keeps_single_points
           sort_values_stable single_points_example).
  - exact sort_values_stable_sorts.
  - repeat (constructor;
            [simpl; intros H; decompose [or] H; try discriminate; auto|]).
    constructor.
Defined.

(** ** Detectors: unknown variable ids *)




Lemma for_each_steps_return {A S : Type} (f : S -> A -> outcome S) (xs : list A) :
  forall st out, for_each f st xs = Returns out ->
                 forall x, In x xs -> exists st0 st1, f st0 x = Returns st1.
Proof.
  induction xs as [|a xs IH]; intros st out H x Hx; [destruct Hx|].
  simpl in H. destruct (f st a) as [st'|e] eqn:Hf; cbn [bind] in H; [|discriminate].
  destruct Hx as [<-|Hx]; [eauto | eapply IH; eauto].
Qed.

Lemma getitem_has_column (df : DataFrame) (v : Z) (s : series) :
  getitem df v = Returns s -> has_column (columns df) v = true.
Proof.
  unfold getitem, has_column.
  destruct (lookup_column (columns df) v); [reflexivity | discriminate].
Qed.

(** X7: the two upgrade detectors return only when every listed id, every
    old id and every new id of the mapping is a column of the table: an
    unknown id anywhere makes the call fail. *)
Theorem upgrade_detectors_need_columns (prim : bard_primitive) (df : DataFrame)
    (ids : list Z) (mapping : variable_mapping_t) (out : DataFrame) :
  AnomalyUpgradeMissing.get_score_df df ids mapping = Returns out \/
  AnomalyUpgradeChange.get_score_df prim df ids mapping = Returns out ->
  are_columns df ids /\
  are_columns df (map fst mapping) /\
  are_columns df (map snd mapping).
Proof.
  intros [H|H].
  - rewrite upgrade_missing_unfold in H.
    destruct (zeros_frame df ids) as [df0|e] eqn:Hz; cbn [bind] in H; [|discriminate].
    split; [eapply zeros_frame_inv; eauto|].
    assert (Hp : forall p, In p mapping ->
                 has_column (columns df) (fst p) = true /\
                 has_column (columns df) (snd p) = true).
    { intros p Hp. destruct (for_each_steps_return _ _ _ _ H p Hp) as (st0 & st1 & Hs).
      unfold upgrade_missing_step in Hs.
      destruct (getitem df (fst p)) as [so|] eqn:Ho; cbn [bind] in Hs; [|discriminate].
      destruct (getitem df (snd p)) as [sn|] eqn:Hn; cbn [bind] in Hs; [|discriminate].
      split; eapply getitem_has_column; eauto. }
    split; intros v Hv; apply in_map_iff in Hv; destruct Hv as (p & <- & Hin);
      now apply Hp.
  - rewrite upgrade_change_unfold in H.
    destruct (zeros_frame df ids) as [df0|e] eqn:Hz; cbn [bind] in H; [|discriminate].
    split; [eapply zeros_frame_inv; eauto|].
    assert (Hp : forall p, In p mapping ->
                 has_column (columns df) (fst p) = true /\
                 has_column (columns df) (snd p) = true).
    { intros [o n] Hp.
      destruct (for_each_setitem_all_return _ _ _ _ _ H (o, n) Hp) as [sc Hsc].
      destruct (upgrade_change_scores_inv prim df o n sc Hsc)
        as (so & sn & eps & Ho & Hn & _).
      split; eapply getitem_has_column; eauto. }
    split; intros v Hv; apply in_map_iff in Hv; destruct Hv as (p & <- & Hin);
      now apply Hp.
Qed.

Lemma upgrade_detectors_need_columns_witness :
  are_columns lost_example [3] /\
  are_columns lost_example (map fst [(1, 3); (2, 3)]) /\
  are_columns lost_example (map snd [(1, 3); (2, 3)]).
Proof.
  apply (upgrade_detectors_need_columns bard_ratio lost_example [3] [(1, 3); (2, 3)]
           {| entity_name := ["A"; "A"]%string;
              year := [1; 2];
              columns := [(3, [Some 1; Some 0]%Q)] |}).
  left. vm_compute. reflexivity.
Defined.

(** ** Missing-on-upgrade detector: flags of all pairs *)

Lemma list_as_map_seq {A : Type} (l : list A) (d : A) :
  l = map (fun i => nth i l d) (seq 0 (length l)).
Proof.
  induction l as [|a l IH]; [reflexivity|].
  simpl. f_equal. rewrite <- seq_shift, map_map. exact IH.
Qed.

Lemma zip_with_map_map {A B C D : Type} (f : A -> B -> C) (a : D -> A) (b : D -> B)
    (l : list D) :
  zip_with f (map a l) (map b l) = map (fun i => f (a i) (b i)) l.
Proof. induction l as [|x l IH]; simpl; [reflexivity | now rewrite IH]. Qed.

Lemma zip_with_as_map_seq {A B C : Type} (f : A -> B -> C) (l1 : list A)
    (l2 : list B) (d1 : A) (d2 : B) (n : nat) :
  length l1 = n -> length l2 = n ->
  zip_with f l1 l2 = map (fun i => f (nth i l1 d1) (nth i l2 d2)) (seq 0 n).
Proof.
  intros H1 H2. rewrite <- zip_with_map_map. f_equal.
  - rewrite <- H1. apply list_as_map_seq.
  - rewrite <- H2. apply list_as_map_seq.
Qed.

Lemma zeros_like_flags (s : series) :
  zeros_like s = flags (fun _ => false) (length s).
Proof.
  unfold zeros_like, flags.
  rewrite (list_as_map_seq s None) at 1. rewrite map_map. reflexivity.
Qed.

Lemma flags_ext (f g : nat -> bool) (n : nat) :
  (forall i, (i < n)%nat -> f i = g i) -> flags f n = flags g n.
Proof.
  intros H. unfold flags. apply map_ext_in. intros i Hi. apply in_seq in Hi.
  rewrite H by lia. reflexivity.
Qed.

Lemma nth_error_flags (f : nat -> bool) (n i : nat) :
  (i < n)%nat -> nth_error (flags f n) i = Some (Some (if f i then 1 else 0)%Q).
Proof.
  intros Hi. unfold flags. rewrite nth_error_map, nth_error_seq.
  apply Nat.ltb_lt in Hi. now rewrite Hi.
Qed.

Lemma value_at_getitem (df : DataFrame) (v : Z) (s : series) (i : nat) :
  getitem df v = Returns s -> value_at df v i = nth i s None.
Proof.
  unfold getitem, value_at. destruct (lookup_column (columns df) v); [|discriminate].
  intros H. now inversion H.
Qed.

(** One round of the loop ors the flags of its pair into the column of the
    pair's new id and leaves the other columns alone. *)
Lemma upgrade_missing_step_flags (df acc acc' : DataFrame) (p : Z * Z) (v : Z)
    (done : variable_mapping_t) :
  well_formed df ->
  upgrade_missing_step df acc p = Returns acc' ->
  lookup_column (columns acc) v = Some (flags (lost df done v) (nrows df)) ->
  lookup_column (columns acc') v = Some (flags (lost df (done ++ [p]) v) (nrows df)).
Proof.
  intros Hwf Hstep Hacc. unfold upgrade_missing_step in Hstep.
  destruct (getitem df (fst p)) as [so|] eqn:Ho; cbn [bind] in Hstep; [|discriminate].
  destruct (getitem df (snd p)) as [sn|] eqn:Hn; cbn [bind] in Hstep; [|discriminate].
  destruct (lookup_loc_set _ _ _ _ _ Hstep) as [_ Hl]. rewrite Hl.
  pose proof (column_length df _ so Hwf Ho) as Hlo.
  pose proof (column_length df _ sn Hwf Hn) as Hln.
  destruct (v =? snd p) eqn:Hv.
  - apply Z.eqb_eq in Hv. subst v. rewrite Hacc. f_equal.
    unfold set_where.
    rewrite (zip_with_as_map_seq _ so sn None None (nrows df) Hlo Hln).
    unfold flags. rewrite zip_with_map_map.
    apply map_ext. intros i. unfold lost. rewrite existsb_app. simpl.
    rewrite Z.eqb_refl, orb_false_r. simpl.
    rewrite (value_at_getitem df (fst p) _ i Ho), (value_at_getitem df (snd p) _ i Hn).
    destruct (notnull (nth i so None) && isnull (nth i sn None));
      [now rewrite orb_true_r|].
    now rewrite orb_false_r.
  - rewrite Hacc. f_equal. apply flags_ext. intros i _. unfold lost.
    rewrite existsb_app. simpl. rewrite (Z.eqb_sym (snd p) v), Hv. simpl.
    now rewrite orb_false_r.
Qed.

Lemma upgrade_missing_loop_flags (df : DataFrame) (v : Z) (items : variable_mapping_t) :
  well_formed df ->
  forall done acc out,
    for_each (upgrade_missing_step df) acc items = Returns out ->
    lookup_column (columns acc) v = Some (flags (lost df done v) (nrows df)) ->
    lookup_column (columns out) v
    = Some (flags (lost df (done ++ items) v) (nrows df)).
Proof.
  intros Hwf. induction items as [|p items IH]; intros done acc out Hloop Hacc.
  - simpl in Hloop. inversion Hloop; subst. now rewrite app_nil_r.
  - simpl in Hloop.
    destruct (upgrade_missing_step df acc p) as [acc'|] eqn:Hstep;
      cbn [bind] in Hloop; [|discriminate].
    replace (done ++ p :: items) with ((done ++ [p]) ++ items)
      by (now rewrite <- app_assoc).
    apply (IH _ acc'); [exact Hloop|].
    now apply (upgrade_missing_step_flags df acc).
Qed.

Lemma upgrade_missing_column (df : DataFrame) (ids : list Z)
    (mapping : variable_mapping_t) (out : DataFrame) (v : Z) :
  well_formed df -> In v ids ->
  AnomalyUpgradeMissing.get_score_df df ids mapping = Returns out ->
  lookup_column (columns out) v = Some (flags (lost df mapping v) (nrows df)).
Proof.
  intros Hwf Hv Hout. rewrite upgrade_missing_unfold in Hout.
  destruct (zeros_frame df ids) as [df0|e] eqn:Hz; cbn [bind] in Hout; [|discriminate].
  pose proof (zeros_frame_inv df df0 ids Hz) as Hids.
  rewrite (zeros_frame_returns df ids Hids) in Hz. inversion Hz as [Hdf0]. clear Hz.
  destruct (getitem_returns df v (Hids v Hv)) as (s & Hs & Hls).
  apply (upgrade_missing_loop_flags df v mapping Hwf [] df0 out Hout).
  rewrite <- Hdf0. cbn [columns].
  rewrite (lookup_column_labels
             (fun l => match lookup_column (columns df) l with
                       | Some s => zeros_like s
                       | None => []
                       end)).
  rewrite (proj2 (existsb_eqb_In v ids) Hv), Hls. f_equal.
  rewrite zeros_like_flags, (column_length df v s Hwf Hs). reflexivity.
Qed.

(** X8: in the frame the missing-on-upgrade detector returns, the score of a
    listed variable at a row is 1 when the variable is null there while some
    old indicator mapped to it is not, and 0 otherwise, whatever the number
    of old indicators mapped to it (none included); a score of 1 is never
    given at a row where the variable has a value. *)
Theorem upgrade_missing_scores (df : DataFrame) (ids : list Z)
    (mapping : variable_mapping_t) (out : DataFrame) (v : Z) (i : nat) :
  well_formed df -> In v ids -> (i < nrows df)%nat ->
  AnomalyUpgradeMissing.get_score_df df ids mapping = Returns out ->
  cell out v i = Some (Some (if lost df mapping v i then 1 else 0)%Q) /\
  (cell out v i = Some (Some 1%Q) -> value_at df v i = None).
Proof.
  intros Hwf Hv Hi Hout.
  assert (Hcell : cell out v i = Some (Some (if lost df mapping v i then 1 else 0)%Q)).
  { unfold cell. rewrite (upgrade_missing_column df ids mapping out v Hwf Hv Hout).
    now apply nth_error_flags. }
  split; [exact Hcell|].
  rewrite Hcell. intros H. destruct (lost df mapping v i) eqn:Hlost; [|discriminate].
  unfold lost in Hlost. apply existsb_exists in Hlost.
  destruct Hlost as (p & _ & Hp). apply andb_true_iff in Hp. destruct Hp as [_ Hp].
  apply andb_true_iff in Hp. destruct Hp as [_ Hp].
  unfold isnull in Hp. now destruct (value_at df v i).
Qed.

Lemma upgrade_missing_scores_witness :
  cell {| entity_name := ["A"; "A"]%string;
          year := [1; 2];
          columns := [(3, [Some 1; Some 0]%Q)] |} 3 0
  = Some (Some (if lost lost_example [(1, 3); (2, 3)] 3 0 then 1%Q else 0%Q)) /\
  (cell {| entity_name := ["A"; "A"]%string;
           year := [1; 2];
           columns := [(3, [Some 1; Some 0]%Q)] |} 3 0 = Some (Some 1%Q) ->
   value_at lost_example 3 0 = None).
Proof.
  apply (upgrade_missing_scores lost_example [3] [(1, 3); (2, 3)]).
  - exact lost_example_well_formed.
  - now left.
  - vm_compute. lia.
  - vm_compute. reflexivity.
Defined.

(** ** Detectors: shape of the score table *)

Lemma has_column_labels (cols : list (Z * series)) (v : Z) :
  In v (map fst cols) -> has_column cols v = true.
Proof.
  unfold has_column. induction cols as [|[k s] cols IH]; simpl; [tauto|].
  destruct (k =? v) eqn:Hk; [reflexivity|].
  apply Z.eqb_neq in Hk. intros [H|H]; [congruence | now apply IH].
Qed.

Lemma map_columns_shape (f : Z * series -> Z * series) (cols : list (Z * series))
    (n : nat) :
  (forall c, In c cols -> fst (f c) = fst c) ->
  (forall c, In c cols -> length (snd c) = n -> length (snd (f c)) = n) ->
  Forall (fun c => length (snd c) = n) cols ->
  map fst (map f cols) = map fst cols /\
  Forall (fun c => length (snd c) = n) (map f cols).
Proof.
  intros Hf Hl Hall. split.
  - rewrite map_map. apply map_ext_in. exact Hf.
  - rewrite Forall_forall in *. intros c Hc. apply in_map_iff in Hc.
    destruct Hc as (c0 & <- & Hc0). apply Hl; [exact Hc0 | now apply Hall].
Qed.

Lemma table_shape_zeros (df df0 : DataFrame) (ids : list Z) :
  well_formed df -> zeros_frame df ids = Returns df0 -> table_shape df ids df0.
Proof.
  intros Hwf Hz. pose proof (zeros_frame_inv df df0 ids Hz) as Hids.
  rewrite (zeros_frame_returns df ids Hids) in Hz. inversion Hz; subst df0.
  unfold table_shape, well_formed, nrows. cbn [entity_name year columns].
  split; [reflexivity|]. split; [reflexivity|]. split.
  - rewrite map_map. simpl. apply map_id.
  - split; [apply Hwf|]. rewrite Forall_forall. intros c Hc.
    apply in_map_iff in Hc. destruct Hc as (l & <- & Hl). cbn [snd].
    destruct (getitem_returns df l (Hids l Hl)) as (s & Hs & ->).
    unfold zeros_like. rewrite length_map.
    apply (column_length df l s Hwf Hs).
Qed.

Lemma table_shape_setitem (df acc : DataFrame) (ids : list Z) (l : Z) (s : series) :
  table_shape df ids acc -> In l ids -> length s = nrows df ->
  table_shape df ids (setitem acc l s).
Proof.
  intros (He & Hy & Hlab & Hwy & Hcols) Hl Hs.
  assert (Hn : nrows acc = nrows df) by (unfold nrows; now rewrite He).
  unfold table_shape, well_formed, setitem, nrows. cbn [entity_name year columns].
  fold (nrows acc). rewrite has_column_labels by (now rewrite Hlab).
  destruct (map_columns_shape (fun c => if fst c =? l then (l, s) else c)
              (columns acc) (nrows acc)) as [H1 H2]; auto.
  - intros c _. destruct (fst c =? l) eqn:E; [|reflexivity].
    apply Z.eqb_eq in E. now rewrite E.
  - intros c _ Hc. destruct (fst c =? l); [simpl; congruence | exact Hc].
  - repeat split; auto. now rewrite H1.
Qed.

Lemma table_shape_loc_set (df acc acc' : DataFrame) (ids : list Z) (l : Z)
    (mask : list bool) (value : float) :
  table_shape df ids acc -> In l ids -> length mask = nrows df ->
  loc_set acc mask l value = Returns acc' ->
  table_shape df ids acc'.
Proof.
  intros (He & Hy & Hlab & Hwy & Hcols) Hl Hm Hset.
  assert (Hn : nrows acc = nrows df) by (unfold nrows; now rewrite He).
  unfold loc_set in Hset. rewrite has_column_labels in Hset by (now rewrite Hlab).
  inversion Hset; subst acc'. clear Hset.
  unfold table_shape, well_formed, nrows. cbn [entity_name year columns].
  fold (nrows acc).
  destruct (map_columns_shape
              (fun c => if fst c =? l then (fst c, set_where mask value (snd c)) else c)
              (columns acc) (nrows acc)) as [H1 H2]; auto.
  - intros c _. now destruct (fst c =? l).
  - intros c _ Hc. destruct (fst c =? l); [|exact Hc]. cbn [snd].
    unfold set_where. rewrite length_zip_with. unfold series, float in *. lia.
  - repeat split; auto. now rewrite H1.
Qed.

Lemma table_shape_loc_set_columns (df acc : DataFrame) (ids labels : list Z)
    (mask : list bool) (value : float) :
  table_shape df ids acc -> length mask = nrows df ->
  table_shape df ids (loc_set_columns acc mask labels value).
Proof.
  intros (He & Hy & Hlab & Hwy & Hcols) Hm.
  assert (Hn : nrows acc = nrows df) by (unfold nrows; now rewrite He).
  unfold table_shape, well_formed, loc_set_columns, nrows.
  cbn [entity_name year columns]. fold (nrows acc).
  destruct (map_columns_shape
              (fun c => if existsb (Z.eqb (fst c)) labels
                        then (fst c, set_where mask value (snd c)) else c)
              (columns acc) (nrows acc)) as [H1 H2]; auto.
  - intros c _. now destruct (existsb (Z.eqb (fst c)) labels).
  - intros c _ Hc. destruct (existsb (Z.eqb (fst c)) labels); [|exact Hc]. cbn [snd].
    unfold set_where. rewrite length_zip_with. unfold series, float in *. lia.
  - repeat split; auto. now rewrite H1.
Qed.

Lemma time_change_scores_length (prim : bard_primitive) (df : DataFrame) (v : Z)
    (s : series) :
  well_formed df -> time_change_scores prim df v = Returns s -> length s = nrows df.
Proof.
  intros Hwf H. unfold time_change_scores in H.
  destruct (getitem df v) as [s0|] eqn:Hs0; cbn [bind] in H; [|discriminate].
  destruct (estimate_bard_epsilon s0) as [eps|]; cbn [bind] in H; [|discriminate].
  unfold bard in H. destruct (bard_raises prim eps); cbn [bind] in H; [discriminate|].
  inversion H; subst s. unfold fillna0.
  rewrite length_map, length_zip_with. unfold series, float in *.
  rewrite length_shift, Nat.min_id. apply (column_length df v s0 Hwf Hs0).
Qed.

(** X9: the score table of the time-discontinuity detector has the rows and
    index columns of the input, exactly one column per listed id in the
    order listed, and one cell per row in each. *)
Theorem time_change_table_shape (prim : bard_primitive) (df : DataFrame)
    (ids : list Z) (mapping : variable_mapping_t) (out : DataFrame) :
  well_formed df ->
  AnomalyTimeChange.get_score_df prim df ids mapping = Returns out ->
  table_shape df ids out.
Proof.
  intros Hwf Hout. rewrite time_change_unfold in Hout.
  destruct (zeros_frame df ids) as [df0|e] eqn:Hz; cbn [bind] in Hout; [|discriminate].
  destruct (index_unchanged_by_sorting df); cbn [negb] in Hout; [|discriminate].
  match type of Hout with
  | context [for_each ?body df0 ids] =>
      destruct (for_each body df0 ids) as [acc|e] eqn:Hloop
  end; cbn [bind] in Hout; [|discriminate].
  inversion Hout; subst out. clear Hout.
  assert (Hacc : table_shape df ids acc).
  { eapply (for_each_invariant (table_shape df ids)); [| |exact Hloop].
    - intros st v st' Hv Hst Hbody. cbv beta in Hbody.
      destruct (time_change_scores prim df v) as [s|] eqn:Hs; cbn [bind] in Hbody;
        [|discriminate].
      inversion Hbody; subst st'. apply table_shape_setitem; auto.
      now apply (time_change_scores_length prim df v).
    - now apply table_shape_zeros. }
  apply table_shape_loc_set_columns; [exact Hacc|].
  rewrite length_entity_changes. destruct Hacc as (He & _). now rewrite He.
Qed.

Lemma time_change_table_shape_witness :
  exists out,
    AnomalyTimeChange.get_score_df bard_ratio (time_change_example None) [1] []
    = Returns out /\
    table_shape (time_change_example None) [1] out.
Proof.
  eexists. split; [vm_compute; reflexivity|].
  apply (time_change_table_shape bard_ratio (time_change_example None) [1] []).
  - apply example_well_formed.
  - vm_compute. reflexivity.
Defined.

Lemma upgrade_missing_table_shape (df : DataFrame) (ids : list Z)
    (mapping : variable_mapping_t) (out : DataFrame) :
  well_formed df -> incl (map snd mapping) ids ->
  AnomalyUpgradeMissing.get_score_df df ids mapping = Returns out ->
  table_shape df ids out.
Proof.
  intros Hwf Hincl Hout. rewrite upgrade_missing_unfold in Hout.
  destruct (zeros_frame df ids) as [df0|e] eqn:Hz; cbn [bind] in Hout; [|discriminate].
  eapply (for_each_invariant (table_shape df ids)); [| |exact Hout].
  - intros st p st' Hp Hst Hstep. unfold upgrade_missing_step in Hstep.
    destruct (getitem df (fst p)) as [so|] eqn:Ho; cbn [bind] in Hstep; [|discriminate].
    destruct (getitem df (snd p)) as [sn|] eqn:Hn; cbn [bind] in Hstep; [|discriminate].
    eapply table_shape_loc_set; [exact Hst| | |exact Hstep].
    + apply Hincl. now apply in_map.
    + rewrite length_zip_with.
      rewrite (column_length df _ so Hwf Ho), (column_length df _ sn Hwf Hn). lia.
  - now apply table_shape_zeros.
Qed.

Lemma upgrade_change_table_shape (prim : bard_primitive) (df : DataFrame)
    (ids : list Z) (mapping : variable_mapping_t) (out : DataFrame) :
  well_formed df -> incl (map snd mapping) ids ->
  AnomalyUpgradeChange.get_score_df prim df ids mapping = Returns out ->
  table_shape df ids out.
Proof.
  intros Hwf Hincl Hout. rewrite upgrade_change_unfold in Hout.
  destruct (zeros_frame df ids) as [df0|e] eqn:Hz; cbn [bind] in Hout; [|discriminate].
  eapply (for_each_invariant (table_shape df ids)); [| |exact Hout].
  - intros st [o n] st' Hp Hst Hbody. cbv beta in Hbody.
    destruct (upgrade_change_scores prim df (o, n)) as [sc|] eqn:Hsc;
      cbn [bind] in Hbody; [|discriminate].
    inversion Hbody; subst st'.
    destruct (upgrade_change_scores_inv prim df o n sc Hsc)
      as (so & sn & eps & Ho & Hn & _ & _ & ->).
    apply table_shape_setitem; [exact Hst| |].
    + apply Hincl. now apply (in_map snd _ (o, n)).
    + rewrite length_zip_with.
      rewrite (column_length df _ so Hwf Ho), (column_length df _ sn Hwf Hn). lia.
  - now apply table_shape_zeros.
Qed.

(** X10: when every new id of the mapping is listed in variable_ids, the
    score tables of the two upgrade detectors have the rows and index
    columns of the input, exactly one column per listed id in the order
    listed, and one cell per row in each. *)
Theorem upgrade_table_shape (prim : bard_primitive) (df : DataFrame)
    (ids : list Z) (mapping : variable_mapping_t) (out : DataFrame) :
  well_formed df -> incl (map snd mapping) ids ->
  AnomalyUpgradeMissing.get_score_df df ids mapping = Returns out \/
  AnomalyUpgradeChange.get_score_df prim df ids mapping = Returns out ->
  table_shape df ids out.
Proof.
  intros Hwf Hincl [Hout|Hout].
  - now apply (upgrade_missing_table_shape df ids mapping).
  - now apply (upgrade_change_table_shape prim df ids mapping).
Qed.

Lemma upgrade_table_shape_witness :
  exists out,
    AnomalyUpgradeChange.get_score_df bard_ratio shared_target_example [3; 1]
      [(1, 3); (2, 3)] = Returns out /\
    table_shape shared_target_example [3; 1] out.
Proof.
  eexists. split; [vm_compute; reflexivity|].
  apply (upgrade_table_shape bard_ratio shared_target_example [3; 1] [(1, 3); (2, 3)]).
  - exact shared_target_example_well_formed.
  - intros v Hv. simpl in Hv. destruct Hv as [<-|[<-|[]]]; now left.
  - right. vm_compute. reflexivity.
Defined.

(** ** Upgrade-change detector: variables without a mapping *)

(** X11: a listed variable that is the new id of no pair of the mapping
    scores 0 at every row of the upgrade-change table. *)
Theorem upgrade_change_unmapped_zero (prim : bard_primitive) (df : DataFrame)
    (ids : list Z) (mapping : variable_mapping_t) (out : DataFrame) (v : Z) (i : nat) :
  well_formed df -> In v ids -> ~ In v (map snd mapping) -> (i < nrows df)%nat ->
  AnomalyUpgradeChange.get_score_df prim df ids mapping = Returns out ->
  cell out v i = Some (Some 0%Q).
Proof.
  intros Hwf Hv Hnot Hi Hout. rewrite upgrade_change_unfold in Hout.
  destruct (zeros_frame df ids) as [df0|e] eqn:Hz; cbn [bind] in Hout; [|discriminate].
  pose proof (zeros_frame_inv df df0 ids Hz) as Hids.
  rewrite (zeros_frame_returns df ids Hids) in Hz. inversion Hz as [Hdf0]. clear Hz.
  destruct (for_each_setitem_lookup _ _ _ _ _ Hout) as (_ & _ & Hl).
  unfold cell. rewrite Hl, find_none_all.
  - rewrite <- Hdf0. cbn [columns].
    rewrite (lookup_column_labels
               (fun l => match lookup_column (columns df) l with
                         | Some s => zeros_like s
                         | None => []
                         end)).
    rewrite (proj2 (existsb_eqb_In v ids) Hv).
    destruct (getitem_returns df v (Hids v Hv)) as (s & Hs & ->).
    unfold zeros_like. rewrite nth_error_map.
    rewrite (nth_error_nth' s None); [reflexivity|].
    now rewrite (column_length df v s Hwf Hs).
  - intros p Hp. apply in_rev in Hp. apply Z.eqb_neq. intros E. apply Hnot.
    rewrite <- E. now apply in_map.
Qed.

Lemma upgrade_change_unmapped_zero_witness :
  cell {| entity_name := ["A"; "A"]%string;
          year := [1; 2];
          columns := [(3, [Some (200000 # 254000); Some (0 # 54000)]%Q);
                      (1, [Some 0; Some 0]%Q)] |} 1 1
  = Some (Some 0%Q).
Proof.
  apply (upgrade_change_unmapped_zero bard_ratio shared_target_example [3; 1]
           [(1, 3); (2, 3)]).
  - exact shared_target_example_well_formed.
  - right. now left.
  - simpl. intros [H|[H|[]]]; discriminate.
  - vm_compute. lia.
  - vm_compute. reflexivity.
Defined.

(** ** Missing-on-upgrade detector followed by the reducer *)




(** ** Inspection of anomalies *)

Lemma dict_get_set (d : variable_mapping_t) (k v q : Z) :
  dict_get (dict_set d k v) q = if k =? q then Some v else dict_get d q.
Proof.
  induction d as [|[k' v'] d IH]; simpl; [reflexivity|].
  destruct (k' =? k) eqn:Hk; simpl.
  - apply Z.eqb_eq in Hk. subst k'. now destruct (k =? q).
  - destruct (k' =? q) eqn:Hq; [|exact IH].
    apply Z.eqb_eq in Hq. subst k'. rewrite Z.eqb_sym in Hk. now rewrite Hk.
Qed.

Lemma variable_id_new_to_old_fold (m d : variable_mapping_t) (new : Z) :
  dict_get (fold_left (fun d (p : Z * Z) => let (k, v) := p in dict_set d v k) m d) new
  = match find (fun p => snd p =? new) (rev m) with
    | Some p => Some (fst p)
    | None => dict_get d new
    end.
Proof.
  revert d. induction m as [|[k v] m IH]; intros d; simpl; [reflexivity|].
  rewrite IH, find_app. destruct (find _ (rev m)); [reflexivity|].
  simpl. rewrite dict_get_set. now destruct (v =? new).
Qed.

(** X13: the reverse mapping built for the inspection sends a new id to the
    old id of the last pair of the mapping that carries it; it only ever
    returns pairs of the mapping, and it has no entry exactly for the ids
    that are the new id of no pair. *)
Theorem variable_id_new_to_old_lookup (m1 m2 : variable_mapping_t) (old new : Z) :
  (forall p, In p m2 -> snd p <> new) ->
  dict_get (variable_id_new_to_old (m1 ++ (old, new) :: m2)) new = Some old /\
  (forall m o n, dict_get (variable_id_new_to_old m) n = Some o -> In (o, n) m) /\
  (forall m n, dict_get (variable_id_new_to_old m) n = None <-> ~ In n (map snd m)).
Proof.
  intros Hlast. unfold variable_id_new_to_old. split; [|split].
  - rewrite variable_id_new_to_old_fold, (find_last_target m1 m2 old new Hlast).
    reflexivity.
  - intros m o n H. rewrite variable_id_new_to_old_fold in H.
    destruct (find (fun p => snd p =? n) (rev m)) as [[o' n']|] eqn:Hf; [|discriminate].
    apply find_some in Hf. destruct Hf as [Hin Hn]. simpl in *.
    apply Z.eqb_eq in Hn. inversion H; subst. now apply in_rev.
  - intros m n. rewrite variable_id_new_to_old_fold.
    destruct (find (fun p => snd p =? n) (rev m)) as [p|] eqn:Hf.
    + split; [discriminate|]. intros Hnot. exfalso. apply Hnot.
      apply find_some in Hf. destruct Hf as [Hin Hn]. apply Z.eqb_eq in Hn.
      rewrite <- Hn. apply in_map. now apply in_rev.
    + split; [|reflexivity]. intros _ Hin. apply in_map_iff in Hin.
      destruct Hin as (p & Hp & Hin). apply in_rev in Hin.
      pose proof (find_none _ _ Hf p Hin) as Hq. simpl in Hq.
      rewrite Hp, Z.eqb_refl in Hq. discriminate.
Qed.

Lemma variable_id_new_to_old_lookup_witness :
  dict_get (variable_id_new_to_old ([(1, 3)] ++ (2, 3) :: [(4, 5)])) 3 = Some 2 /\
  (forall m o n, dict_get (variable_id_new_to_old m) n = Some o -> In (o, n) m) /\
  (forall m n, dict_get (variable_id_new_to_old m) n = None <-> ~ In n (map snd m)).
Proof.
  apply (variable_id_new_to_old_lookup [(1, 3)] [(4, 5)] 2 3).
  intros p [<-|[]]. discriminate.
Defined.

Lemma StronglySorted_app_dominates {A : Type} (R : A -> A -> Prop) (l1 l2 : list A) :
  StronglySorted R (l1 ++ l2) -> forall a b, In a l1 -> In b l2 -> R a b.
Proof.
  induction l1 as [|x l1 IH]; intros Hs a b Ha Hb; [destruct Ha|].
  simpl in Hs. apply StronglySorted_inv in Hs. destruct Hs as [Hs Hall].
  destruct Ha as [<-|Ha]; [|now apply IH].
  rewrite Forall_forall in Hall. apply Hall. apply in_or_app. now right.
Qed.

(** X14: the rows selected for inspection are the most significant ones:
    together with the rows left out they make up the anomalies, every
    selected row scores at least as high as every row left out, and their
    number is [n_anomalies] capped by the number of anomalies (all but the
    last [-n_anomalies] rows when the number is negative). *)
Theorem most_significant_anomalies_dominate
    (sort_values : list LongRow -> list LongRow) (anomalies : list LongRow) (n : Z) :
  sorts_descending sort_values ->
  exists rest,
    Permutation (most_significant_anomalies sort_values anomalies n ++ rest) anomalies /\
    (forall a b, In a (most_significant_anomalies sort_values anomalies n) ->
                 In b rest -> score_ge a b) /\
    length (most_significant_anomalies sort_values anomalies n)
    = if 0 <=? n then Nat.min (Z.to_nat n) (length anomalies)
      else (length anomalies - Z.to_nat (- n))%nat.
Proof.
  intros Hsort. destruct (Hsort anomalies) as [Hperm Hsorted].
  unfold most_significant_anomalies, head.
  set (k := if 0 <=? n then Z.to_nat n
            else (length (sort_values anomalies) - Z.to_nat (- n))%nat).
  assert (E : (if 0 <=? n then firstn (Z.to_nat n) (sort_values anomalies)
               else firstn (length (sort_values anomalies) - Z.to_nat (- n))
                      (sort_values anomalies))
              = firstn k (sort_values anomalies))
    by (unfold k; now destruct (0 <=? n)).
  rewrite E. exists (skipn k (sort_values anomalies)).
  rewrite firstn_skipn. split; [exact Hperm|]. split.
  - apply StronglySorted_app_dominates. now rewrite firstn_skipn.
  - rewrite length_firstn, (Permutation_length Hperm). unfold k.
    rewrite (Permutation_length Hperm). destruct (0 <=? n); lia.
Qed.

Lemma most_significant_anomalies_dominate_witness :
  exists rest,
    Permutation
      (most_significant_anomalies sort_values_stable
         (fillna0_long (melt reducer_example)) 2 ++ rest)
      (fillna0_long (melt reducer_example)) /\
    (forall a b,
        In a (most_significant_anomalies sort_values_stable
                (fillna0_long (melt reducer_example)) 2) ->
        In b rest -> score_ge a b) /\
    length (most_significant_anomalies sort_values_stable
              (fillna0_long (melt reducer_example)) 2)
    = if 0 <=? 2 then Nat.min (Z.to_nat 2)
                        (length (fillna0_long (melt reducer_example)))
      else (length (fillna0_long (melt reducer_example)) - Z.to_nat (- 2))%nat.
Proof.
  apply (most_significant_anomalies_dominate sort_values_stable
           (fillna0_long (melt reducer_example)) 2).
  exact sort_values_stable_sorts.
Defined.

(** ** Epsilon estimator: order of the rows *)

Lemma insert_Q_compat (x : Q) (l l' : list Q) :
  Forall2 Qeq l l' -> Forall2 Qeq (insert_Q x l) (insert_Q x l').
Proof.
  induction 1 as [|a a' l l' Ha Hl IH]; simpl.
  - constructor; [reflexivity | constructor].
  - assert (E : Qle_bool x a = Qle_bool x a') by (now rewrite Ha).
    rewrite <- E. destruct (Qle_bool x a).
    + constructor; [reflexivity|]. now constructor.
    + now constructor.
Qed.

Lemma Forall2_Qeq_refl (l : list Q) : Forall2 Qeq l l.
Proof. induction l; constructor; [reflexivity | assumption]. Qed.

Lemma Forall2_Qeq_trans (l1 l2 l3 : list Q) :
  Forall2 Qeq l1 l2 -> Forall2 Qeq l2 l3 -> Forall2 Qeq l1 l3.
Proof.
  intros H. revert l3. induction H as [|a b l1 l2 Hab Hl IH]; intros l3 H23;
    inversion H23; subst; constructor.
  - etransitivity; eassumption.
  - now apply IH.
Qed.

Lemma Qle_bool_antisym (x y : Q) :
  Qle_bool x y = true -> Qle_bool y x = true -> (x == y)%Q.
Proof. intros H1 H2. apply Qle_bool_iff in H1, H2. now apply Qle_antisym. Qed.

Lemma Qle_bool_total (x y : Q) : Qle_bool x y = false -> Qle_bool y x = true.
Proof.
  intros H. apply Qle_bool_iff. apply Qlt_le_weak, Qnot_le_lt.
  intros H'. apply Qle_bool_iff in H'. congruence.
Qed.

Lemma Qle_bool_trans (x y z : Q) :
  Qle_bool x y = true -> Qle_bool y z = true -> Qle_bool x z = true.
Proof.
  rewrite !Qle_bool_iff. apply Qle_trans.
Qed.

(** Two insertions commute up to the representation of equal rationals. *)
Lemma insert_Q_swap (x y : Q) (l : list Q) :
  Forall2 Qeq (insert_Q x (insert_Q y l)) (insert_Q y (insert_Q x l)).
Proof.
  induction l as [|a l IH]; simpl.
  - destruct (Qle_bool x y) eqn:E1, (Qle_bool y x) eqn:E2.
    + constructor; [now apply Qle_bool_antisym|].
      constructor; [now apply Qle_bool_antisym | constructor].
    + apply Forall2_Qeq_refl.
    + apply Forall2_Qeq_refl.
    + pose proof (Qle_bool_total _ _ E1). congruence.
  - destruct (Qle_bool y a) eqn:Ey, (Qle_bool x a) eqn:Ex; simpl.
    + destruct (Qle_bool x y) eqn:E1, (Qle_bool y x) eqn:E2;
        rewrite ?Ex, ?Ey; simpl.
      * constructor; [now apply Qle_bool_antisym|].
        constructor; [now apply Qle_bool_antisym | apply Forall2_Qeq_refl].
      * apply Forall2_Qeq_refl.
      * apply Forall2_Qeq_refl.
      * pose proof (Qle_bool_total _ _ E1). congruence.
    + assert (E1 : Qle_bool x y = false).
      { destruct (Qle_bool x y) eqn:E; [|reflexivity].
        pose proof (Qle_bool_trans _ _ _ E Ey). congruence. }
      rewrite E1, Ex, Ey. simpl. apply Forall2_Qeq_refl.
    + assert (E2 : Qle_bool y x = false).
      { destruct (Qle_bool y x) eqn:E; [|reflexivity].
        pose proof (Qle_bool_trans _ _ _ E Ex). congruence. }
      rewrite E2, Ex, Ey. simpl. apply Forall2_Qeq_refl.
    + rewrite Ex, Ey. constructor; [reflexivity | exact IH].
Qed.

Lemma sort_Q_permutation (l1 l2 : list Q) :
  Permutation l1 l2 -> Forall2 Qeq (sort_Q l1) (sort_Q l2).
Proof.
  unfold sort_Q. induction 1 as [|x l l' _ IH|x y l|l1 l2 l3 _ IH1 _ IH2]; simpl.
  - constructor.
  - now apply insert_Q_compat.
  - apply insert_Q_swap.
  - eapply Forall2_Qeq_trans; eassumption.
Qed.

Lemma Forall2_Qeq_nth (l1 l2 : list Q) (d1 d2 : Q) (i : nat) :
  Forall2 Qeq l1 l2 -> (i < length l1)%nat -> (nth i l1 d1 == nth i l2 d2)%Q.
Proof.
  intros H. revert i. induction H as [|a b l1 l2 Hab Hl IH]; intros i Hi;
    simpl in Hi; [lia|].
  destruct i as [|i]; simpl; [exact Hab | apply IH; lia].
Qed.

Lemma quantile_index_bounds (n : Z) (q : Q) :
  1 <= n -> (0 <= q)%Q -> (q <= 1)%Q ->
  0 <= Qfloor (inject_Z (n - 1) * q) <= n - 1.
Proof.
  intros Hn H0 H1.
  assert (Hn1 : (0 <= inject_Z (n - 1))%Q).
  { change 0%Q with (inject_Z 0). rewrite <- Zle_Qle. lia. }
  assert (Hh0 : (0 <= inject_Z (n - 1) * q)%Q) by nra.
  assert (Hh1 : (inject_Z (n - 1) * q <= inject_Z (n - 1))%Q) by nra.
  split.
  - rewrite <- (Qfloor_Z 0). now apply Qfloor_resp_le.
  - rewrite <- (Qfloor_Z (n - 1)) at 2. now apply Qfloor_resp_le.
Qed.

Lemma quantile_permutation (l1 l2 : list Q) (q : Q) :
  Permutation l1 l2 -> (0 <= q)%Q -> (q <= 1)%Q ->
  float_eq (quantile l1 q) (quantile l2 q).
Proof.
  intros Hperm H0 H1.
  pose proof (sort_Q_permutation l1 l2 Hperm) as Hsorted.
  pose proof (Permutation_length Hperm) as Hlen.
  pose proof (Permutation_length (sort_Q_perm l1)) as Hlen1.
  unfold quantile.
  destruct l1 as [|a1 r1] eqn:E1, l2 as [|a2 r2] eqn:E2;
    try (simpl in Hlen; discriminate); [exact I|].
  rewrite <- E1, <- E2 in *. rewrite <- Hlen.
  set (n := Z.of_nat (length l1)).
  assert (Hn : 1 <= n) by (unfold n; rewrite E1; simpl; lia).
  destruct (quantile_index_bounds n q Hn H0 H1) as [Hlo Hhi].
  set (lo := Qfloor (inject_Z (n - 1) * q)) in *.
  assert (Hnth : forall k, 0 <= k -> k <= n - 1 ->
             (nth (Z.to_nat k) (sort_Q l1) a1 == nth (Z.to_nat k) (sort_Q l2) a2)%Q).
  { intros k Hk0 Hk1. apply Forall2_Qeq_nth; [exact Hsorted|].
    rewrite Hlen1. unfold n in Hk1. lia. }
  simpl.
  rewrite (Hnth lo Hlo Hhi), (Hnth (Z.min (lo + 1) (n - 1))) by lia.
  reflexivity.
Qed.

Lemma dropna_permutation (s1 s2 : series) :
  Permutation s1 s2 -> Permutation (dropna s1) (dropna s2).
Proof.
  induction 1 as [|[x|] l l' _ IH|[x|] [y|] l|l1 l2 l3 _ IH1 _ IH2]; simpl;
    try reflexivity; try assumption.
  - now constructor.
  - apply perm_swap.
  - etransitivity; eassumption.
Qed.

Lemma filter_permutation {A : Type} (f : A -> bool) (l1 l2 : list A) :
  Permutation l1 l2 -> Permutation (filter f l1) (filter f l2).
Proof.
  induction 1 as [|x l l' _ IH|x y l|l1 l2 l3 _ IH1 _ IH2]; simpl.
  - constructor.
  - destruct (f x); [now constructor | assumption].
  - destruct (f x), (f y); try reflexivity. apply perm_swap.
  - etransitivity; eassumption.
Qed.

(** X15: the estimate does not depend on the order of the rows: two series
    with the same cells in a different order get the same scale. *)
Theorem estimate_bard_epsilon_permutation (s1 s2 : series) :
  Permutation s1 s2 ->
  exists eps1 eps2,
    estimate_bard_epsilon s1 = Returns eps1 /\
    estimate_bard_epsilon s2 = Returns eps2 /\
    float_eq eps1 eps2.
Proof.
  intros Hperm. unfold estimate_bard_epsilon. rewrite !positive_values_spec.
  do 2 eexists. split; [reflexivity|]. split; [reflexivity|].
  assert (Hp : Permutation (nonzero_abs_values s1) (nonzero_abs_values s2)).
  { unfold nonzero_abs_values. apply Permutation_map, filter_permutation.
    now apply dropna_permutation. }
  pose proof (quantile_permutation _ _ (95 # 100) Hp) as H95.
  pose proof (quantile_permutation _ _ (5 # 100) Hp) as H05.
  specialize (H95 ltac:(discriminate) ltac:(discriminate)).
  specialize (H05 ltac:(discriminate) ltac:(discriminate)).
  destruct (quantile (nonzero_abs_values s1) (95 # 100)) as [a1|],
           (quantile (nonzero_abs_values s2) (95 # 100)) as [a2|];
    simpl in H95; try contradiction;
    destruct (quantile (nonzero_abs_values s1) (5 # 100)) as [b1|],
             (quantile (nonzero_abs_values s2) (5 # 100)) as [b2|];
    simpl in H05; try contradiction; simpl; try exact I.
  now rewrite H95, H05.
Qed.

Lemma estimate_bard_epsilon_permutation_witness :
  exists eps1 eps2,
    estimate_bard_epsilon [Some 10; None; Some 1000; Some 3]%Q = Returns eps1 /\
    estimate_bard_epsilon [None; Some 10; Some 3; Some 1000]%Q = Returns eps2 /\
    float_eq eps1 eps2.
Proof.
  apply (estimate_bard_epsilon_permutation
           [Some 10; None; Some 1000; Some 3]%Q
           [None; Some 10; Some 3; Some 1000]%Q).
  apply (perm_trans (l' := [None; Some 10; Some 1000; Some 3]%Q));
    [apply perm_swap|].
  apply perm_skip, perm_skip, perm_swap.
Defined.

(** ** Epsilon estimator: change of unit *)








(** ** Time-discontinuity detector: one indicator at a time *)


